(** * Hook.Collection: the query builder of hook-javascript

    A shallow embedding of the class [Collection] of [src/collection.js]
    and the properties of its accumulator, of its compile-and-reset step
    [buildQuery] and of its terminal verbs.

    The file first models the JavaScript values the builder handles, with
    the built-ins the class calls ([typeof], truthiness, string
    conversion, [toLowerCase], [parseInt], [RegExp.prototype.test]), then
    the transport collaborator, then the class: its constructor, its
    modifiers, [buildQuery], and the terminal methods [get], [then],
    [create], [update], [updateAll], [remove], [drop], [paginate] and
    [channel].  The properties follow. *)

From Stdlib Require Import ZArith String Ascii List Bool Lia.
From Stdlib Require Import DecimalString.
From stdpp Require Import gmap strings list.

Local Open Scope string_scope.

(* stdpp keeps [simpl] from unfolding string concatenation; the proofs
   here compute with it. *)
#[local] Arguments String.append !_ _ / : simpl nomatch.

(** ** JavaScript values *)

Module JS.

(** A decimal digit. *)
Inductive digit := d0 | d1 | d2 | d3 | d4 | d5 | d6 | d7 | d8 | d9.

Definition digit_value (d : digit) : Z :=
  match d with
  | d0 => 0 | d1 => 1 | d2 => 2 | d3 => 3 | d4 => 4
  | d5 => 5 | d6 => 6 | d7 => 7 | d8 => 8 | d9 => 9
  end.

Definition digit_char (d : digit) : ascii :=
  match d with
  | d0 => "0" | d1 => "1" | d2 => "2" | d3 => "3" | d4 => "4"
  | d5 => "5" | d6 => "6" | d7 => "7" | d8 => "8" | d9 => "9"
  end%char.

Definition char_digit (c : ascii) : option digit :=
  match c with
  | "0" => Some d0 | "1" => Some d1 | "2" => Some d2 | "3" => Some d3
  | "4" => Some d4 | "5" => Some d5 | "6" => Some d6 | "7" => Some d7
  | "8" => Some d8 | "9" => Some d9 | _ => None
  end%char.

(** A Number value.  A finite non-zero number is held as the triple that
    ECMAScript's Number::toString works on: its sign, the decimal digits
    [s] (most significant first, [k] of them) and the exponent [n], the
    value being [0.s * 10^n], that is [s * 10^(n-k)].  So [-1] is
    [Finite true [d1] 1], [20] is [Finite false [d2] 2] and [-1.5] is
    [Finite true [d1; d5] 1]. *)
Inductive number :=
| NaN
| Infinity (neg : bool)
| Zero (neg : bool)
| Finite (neg : bool) (s : list digit) (n : Z).

(** The digits of a finite number are well formed when there is at least
    one and the first is not zero. *)
Definition digits_wf (s : list digit) : Prop :=
  match s with
  | [] => False
  | d :: _ => d <> d0
  end.

#[local] Set Warnings "-register-all".

(** A value.  Strings are sequences of code units below 256; a function is
    opaque and carries its source text only; an object holds its own
    enumerable properties in enumeration order, followed by the enumerable
    properties it inherits. *)
Inductive value :=
| VUndefined
| VNull
| VBool (b : bool)
| VNumber (x : number)
| VString (s : string)
| VFunction (src : string)
| VArray (elems : list value)
| VArguments (elems : list value)
| VObject (own : list (string * value)) (inherited : list (string * value)).

(** [typeof v] *)
Definition typeof (v : value) : string :=
  match v with
  | VUndefined => "undefined"
  | VNull => "object"
  | VBool _ => "boolean"
  | VNumber _ => "number"
  | VString _ => "string"
  | VFunction _ => "function"
  | VArray _ | VArguments _ | VObject _ _ => "object"
  end.

(** ToBoolean: what [if (v)] and [!v] test. *)
Definition truthy (v : value) : bool :=
  match v with
  | VUndefined | VNull => false
  | VBool b => b
  | VNumber NaN | VNumber (Zero _) => false
  | VNumber _ => true
  | VString s => negb (String.eqb s "")
  | VFunction _ | VArray _ | VArguments _ | VObject _ _ => true
  end.

(** [v instanceof Array] *)
Definition instanceof_Array (v : value) : bool :=
  match v with VArray _ => true | _ => false end.

(** [v.length > 0] for the array-likes the builder stores. *)
Definition length_gt_0 (v : value) : bool :=
  match v with
  | VArray l | VArguments l => negb (Nat.eqb (length l) 0)
  | VString s => negb (Nat.eqb (String.length s) 0)
  | _ => false
  end.

(** *** Number to string (Number::toString, radix 10) *)

Definition digits_string (s : list digit) : string :=
  string_of_list_ascii (map digit_char s).

Definition sign_string (neg : bool) : string := if neg then "-" else "".

Definition decimal_of_Z (z : Z) : string :=
  NilZero.string_of_uint (N.to_uint (Z.to_N z)).

Definition Number_toString (x : number) : string :=
  match x with
  | NaN => "NaN"
  | Zero _ => "0"
  | Infinity neg => sign_string neg +:+ "Infinity"
  | Finite neg s n =>
      let k := Z.of_nat (length s) in
      sign_string neg +:+
      (if (k <=? n)%Z && (n <=? 21)%Z then
         digits_string (s ++ repeat d0 (Z.to_nat (n - k)))
       else if (0 <? n)%Z && (n <=? 21)%Z then
         digits_string (take (Z.to_nat n) s) +:+ "." +:+
         digits_string (drop (Z.to_nat n) s)
       else if (-6 <? n)%Z && (n <=? 0)%Z then
         "0." +:+ digits_string (repeat d0 (Z.to_nat (- n)) ++ s)
       else
         let e := (n - 1)%Z in
         let exponent :=
           "e" +:+ (if (0 <=? e)%Z then "+" else "-") +:+ decimal_of_Z (Z.abs e) in
         match s with
         | [] => exponent
         | [d] => digits_string [d] +:+ exponent
         | d :: rest => digits_string [d] +:+ "." +:+ digits_string rest +:+ exponent
         end)
  end.

(** *** ToString *)

(** Array.prototype.join on elements already converted. *)
Fixpoint Array_join (sep : string) (l : list string) : string :=
  match l with
  | [] => ""
  | [s] => s
  | s :: rest => s +:+ sep +:+ Array_join sep rest
  end.

(** String conversion as [+] with a string operand and [RegExp.test]
    perform it.  Objects are plain data: they print through
    Object.prototype.toString, arrays through Array.prototype.join. *)
Fixpoint ToString (v : value) : string :=
  match v with
  | VUndefined => "undefined"
  | VNull => "null"
  | VBool true => "true"
  | VBool false => "false"
  | VNumber x => Number_toString x
  | VString s => s
  | VFunction src => src
  | VArray l =>
      Array_join "," (map (fun e => match e with
                              | VUndefined | VNull => ""
                              | _ => ToString e
                              end) l)
  | VArguments _ => "[object Arguments]"
  | VObject _ _ => "[object Object]"
  end.

(** *** String.prototype.toLowerCase on code units below 256 *)

Definition lower_char (c : ascii) : ascii :=
  let n := nat_of_ascii c in
  if ((65 <=? n) && (n <=? 90))%nat then ascii_of_nat (n + 32)
  else if ((192 <=? n) && (n <=? 222) && negb (n =? 215))%nat then ascii_of_nat (n + 32)
  else c.

Fixpoint toLowerCase (s : string) : string :=
  match s with
  | EmptyString => EmptyString
  | String c rest => String (lower_char c) (toLowerCase rest)
  end.

(** *** parseInt(string, 10) *)

(** White space and line terminators below 256. *)
Definition is_white_space (c : ascii) : bool :=
  let n := nat_of_ascii c in
  ((9 <=? n) && (n <=? 13) || (n =? 32) || (n =? 160))%nat.

Fixpoint skip_white_space (s : string) : string :=
  match s with
  | String c rest => if is_white_space c then skip_white_space rest else s
  | EmptyString => s
  end.

(** The longest prefix of decimal digits. *)
Fixpoint digits_prefix (s : string) : list digit :=
  match s with
  | String c rest =>
      match char_digit c with
      | Some d => d :: digits_prefix rest
      | None => []
      end
  | EmptyString => []
  end.

Definition digits_Z (s : list digit) : Z :=
  fold_left (fun acc d => (10 * acc + digit_value d)%Z) s 0%Z.

(** The result of parseInt: [None] is NaN, [Some z] the integer [z]. *)
Definition parseInt_string (s : string) : option Z :=
  let s := skip_white_space s in
  let '(sign, s) :=
    match s with
    | String "-" rest => ((-1)%Z, rest)
    | String "+" rest => (1%Z, rest)
    | _ => (1%Z, s)
    end in
  match digits_prefix s with
  | [] => None
  | ds => Some (sign * digits_Z ds)%Z
  end.

(** [parseInt(v, 10)]: the argument is converted to a string first. *)
Definition parseInt (v : value) : option Z := parseInt_string (ToString v).

End JS.

Import JS.

(** ** Regular expressions

    [_validateName] tests its argument against a regular expression
    literal.  Patterns are matched by derivatives; [lang] is their
    denotation, against which the matcher is proved. *)

Module RegExp.

(** One item of a character class: a single code unit or a range. *)
Inductive class_item :=
| Single (c : ascii)
| Range (lo hi : ascii).

Inductive pattern :=
| Void
| Eps
| Class (items : list class_item)
| Cat (p q : pattern)
| Alt (p q : pattern)
| Star (p : pattern).

(** [p+] *)
Definition Plus (p : pattern) : pattern := Cat p (Star p).

Definition item_has (c : ascii) (i : class_item) : bool :=
  match i with
  | Single x => Ascii.eqb c x
  | Range lo hi =>
      ((nat_of_ascii lo <=? nat_of_ascii c) && (nat_of_ascii c <=? nat_of_ascii hi))%nat
  end.

Definition class_has (items : list class_item) (c : ascii) : bool :=
  existsb (item_has c) items.

Fixpoint nullable (p : pattern) : bool :=
  match p with
  | Void => false
  | Eps => true
  | Class _ => false
  | Cat p q => nullable p && nullable q
  | Alt p q => nullable p || nullable q
  | Star _ => true
  end.

Fixpoint deriv (c : ascii) (p : pattern) : pattern :=
  match p with
  | Void => Void
  | Eps => Void
  | Class items => if class_has items c then Eps else Void
  | Cat p q =>
      if nullable p then Alt (Cat (deriv c p) q) (deriv c q)
      else Cat (deriv c p) q
  | Alt p q => Alt (deriv c p) (deriv c q)
  | Star p => Cat (deriv c p) (Star p)
  end.

(** Whether the whole of [s] matches [p]. *)
Fixpoint matches (p : pattern) (s : string) : bool :=
  match s with
  | EmptyString => nullable p
  | String c rest => matches (deriv c p) rest
  end.

(** A regular expression literal without flags: the pattern between a
    leading [^] and a trailing [$].  Without the multiline flag the two
    assertions hold at the two ends of the input only, so [test] succeeds
    exactly when the whole input matches the pattern. *)
Record regexp := Anchored { body : pattern }.

(** [regexp.test(v)]: the argument is converted to a string first. *)
Definition test (r : regexp) (v : value) : bool := matches (body r) (ToString v).

(** The denotation of a pattern. *)
Inductive star (L : string -> Prop) : string -> Prop :=
| star_nil : star L ""
| star_app s t : L s -> star L t -> star L (s +:+ t).

Fixpoint lang (p : pattern) (s : string) : Prop :=
  match p with
  | Void => False
  | Eps => s = ""
  | Class items => exists c, s = String c "" /\ class_has items c = true
  | Cat p q => exists s1 s2, s = s1 +:+ s2 /\ lang p s1 /\ lang q s2
  | Alt p q => lang p s \/ lang q s
  | Star p => star (lang p) s
  end.

(** Whether every character of [s] is in the class. *)
Fixpoint all_in_class (items : list class_item) (s : string) : bool :=
  match s with
  | EmptyString => true
  | String c rest => class_has items c && all_in_class items rest
  end.

End RegExp.

(** ** Completions

    A call either returns a value or throws.  The class throws plain
    [Error]s with a message; calling what is not a function, or reading
    a property of [undefined], throws a [TypeError]. *)

Inductive error :=
| Error (message : string)
| TypeError.

Inductive completion (A : Type) :=
| Normal (a : A)
| Throw (e : error).
Arguments Normal {A} a.
Arguments Throw {A} e.

(** ** The transport collaborator

    The class [Hook.Client] and the class [Hook.Pagination] are not part
    of [collection.js]; they are modelled here as far as the builder uses
    them. *)

Module Client.

(** Modelled from the spec: the four methods of the client, [get(path,
    query)], [post(path, payload)], [put(path, payload)] and
    [remove(path, query?)]. *)
Inductive verb := get | post | put | remove.

(** The second argument of a call: left out, a raw payload, or a compiled
    descriptor. *)
Inductive payload :=
| Absent
| Raw (data : value)
| Query (query : gmap string value).

(** Modelled from the spec: [Hook.Pagination], the external pagination
    collaborator the result of [paginate] is wrapped in.  Constructing it
    on a collection dispatches nothing and leaves the builder as it is; it
    is held as the path of that collection. *)
Record Pagination := { collection : string }.

(** What is attached to a promise through [then]: an argument of the
    caller passed on as it is, or the function [paginate] builds around
    its pagination object and its [onComplete]. *)
Inductive continuation :=
| Given (f : value)
| FetchComplete (pagination : Pagination) (onComplete : value).

(** A call made on the client, with the continuations attached to its
    promise so far, one list for each [then]. *)
Record request := {
  verb_of : verb;
  path : string;
  body : payload;
  thens : list (list continuation)
}.

(** Modelled from the spec: the client, held as the log of the calls made
    on it, oldest first.  A call never throws; it returns a promise, which
    is the position of the call in the log. *)
Record t := { requests : list request }.

Definition promise := nat.

Definition call (v : verb) (p : string) (b : payload) (c : t) : promise * t :=
  (length (requests c),
   {| requests := requests c ++ [{| verb_of := v; path := p; body := b; thens := [] |}] |}).

(** Modelled from the spec: [promise.then.apply(promise, args)] attaches
    the continuations to the call of the promise and runs none of them. *)
Definition promise_then (p : promise) (args : list continuation) (c : t) : t :=
  {| requests :=
       alter (fun r => {| verb_of := verb_of r; path := path r; body := body r;
                          thens := thens r ++ [args] |}) p (requests c) |}.

(** The calls the continuation of [paginate] makes when it runs. *)
Inductive call_event :=
| fetchComplete (pagination : Pagination) (data : value)
| invoke (f : value) (argument : Pagination).

(** The function [paginate] attaches, run on the [data] the promise
    resolves with: it hands the data to the pagination object, then calls
    [onComplete] if it is truthy.  Calling what is not a function
    throws. *)
Definition run_FetchComplete (pagination : Pagination) (onComplete data : value)
  : list call_event * completion unit :=
  let events := [fetchComplete pagination data] in
  if truthy onComplete then
    match onComplete with
    | VFunction _ => ((events ++ [invoke onComplete pagination])%list, Normal tt)
    | _ => (events, Throw TypeError)
    end
  else (events, Normal tt).

End Client.

(** ** The class *)

Record Collection := {
  client : Client.t;
  name : value;
  segments : string;
  options : gmap string value;
  wheres : list value;
  ordering : list value;
  _group : value;
  _limit : value;
  _offset : value;
  _remember : value
}.

(** A method runs on [this], may change it, and either returns or throws;
    what was changed before a throw stays changed. *)
Definition method (A : Type) : Type := Collection -> completion A * Collection.

#[export] Instance method_ret : MRet method := fun A a this => (Normal a, this).

#[export] Instance method_bind : MBind method := fun A B k m this =>
  match m this with
  | (Normal a, this') => k a this'
  | (Throw e, this') => (Throw e, this')
  end.

Definition throw {A} (e : error) : method A := fun this => (Throw e, this).

(** Read a field of [this]. *)
Definition this_ {A} (field : Collection -> A) : method A :=
  fun this => (Normal (field this), this).

(** Assign to [this]. *)
Definition assign (f : Collection -> Collection) : method unit :=
  fun this => (Normal tt, f this).

Definition set_client (v : Client.t) (c : Collection) : Collection :=
  {| client := v; name := name c; segments := segments c; options := options c;
     wheres := wheres c; ordering := ordering c; _group := _group c;
     _limit := _limit c; _offset := _offset c; _remember := _remember c |}.

Definition set_options (v : gmap string value) (c : Collection) : Collection :=
  {| client := client c; name := name c; segments := segments c; options := v;
     wheres := wheres c; ordering := ordering c; _group := _group c;
     _limit := _limit c; _offset := _offset c; _remember := _remember c |}.

Definition set_wheres (v : list value) (c : Collection) : Collection :=
  {| client := client c; name := name c; segments := segments c; options := options c;
     wheres := v; ordering := ordering c; _group := _group c;
     _limit := _limit c; _offset := _offset c; _remember := _remember c |}.

Definition set_ordering (v : list value) (c : Collection) : Collection :=
  {| client := client c; name := name c; segments := segments c; options := options c;
     wheres := wheres c; ordering := v; _group := _group c;
     _limit := _limit c; _offset := _offset c; _remember := _remember c |}.

Definition set_group (v : value) (c : Collection) : Collection :=
  {| client := client c; name := name c; segments := segments c; options := options c;
     wheres := wheres c; ordering := ordering c; _group := v;
     _limit := _limit c; _offset := _offset c; _remember := _remember c |}.

Definition set_limit (v : value) (c : Collection) : Collection :=
  {| client := client c; name := name c; segments := segments c; options := options c;
     wheres := wheres c; ordering := ordering c; _group := _group c;
     _limit := v; _offset := _offset c; _remember := _remember c |}.

Definition set_offset (v : value) (c : Collection) : Collection :=
  {| client := client c; name := name c; segments := segments c; options := options c;
     wheres := wheres c; ordering := ordering c; _group := _group c;
     _limit := _limit c; _offset := v; _remember := _remember c |}.

Definition set_remember (v : value) (c : Collection) : Collection :=
  {| client := client c; name := name c; segments := segments c; options := options c;
     wheres := wheres c; ordering := ordering c; _group := _group c;
     _limit := _limit c; _offset := _offset c; _remember := v |}.

(** [this.options[k] = v] *)
Definition set_option (k : string) (v : value) : method unit :=
  assign (fun this => set_options (<[k := v]> (options this)) this).

(** [this.client.<verb>(path, body)] *)
Definition client_call (v : Client.verb) (path : string) (b : Client.payload)
  : method Client.promise :=
  fun this =>
    let '(p, c) := Client.call v path b (client this) in
    (Normal p, set_client c this).

(** [promise.then.apply(promise, args)] on a promise of [this.client]. *)
Definition promise_then (p : Client.promise) (args : list Client.continuation)
  : method unit :=
  assign (fun this => set_client (Client.promise_then p args (client this)) this).

(** [typeof(v) === "undefined"] *)
Definition is_undefined (v : value) : bool := String.eqb (typeof v) "undefined".

(** [v !== null] *)
Definition not_null (v : value) : bool :=
  match v with VNull => false | _ => true end.

(** *** Property enumeration, for [where] *)

(** The own enumerable properties of a value that [typeof] calls an
    object: the entries of an object, the indices of an array. *)
Definition own_entries (v : value) : list (string * value) :=
  match v with
  | VObject own _ => own
  | VArray l | VArguments l => imap (fun i e => (decimal_of_Z (Z.of_nat i), e)) l
  | _ => []
  end.

Definition inherited_entries (v : value) : list (string * value) :=
  match v with
  | VObject _ inherited => inherited
  | _ => []
  end.

Fixpoint assoc (k : string) (l : list (string * value)) : option value :=
  match l with
  | [] => None
  | (k', v) :: rest => if String.eqb k k' then Some v else assoc k rest
  end.

(** Object.prototype.hasOwnProperty, on [objects] and [field]. *)
Definition hasOwnProperty (objects : value) (field : string) : bool :=
  match assoc field (own_entries objects) with Some _ => true | None => false end.

(** The keys [for (field in objects)] visits: the own ones, then the
    inherited ones that no own property shadows. *)
Definition for_in (objects : value) : list string :=
  map fst (own_entries objects) ++
  List.filter (fun k => negb (hasOwnProperty objects k))
              (map fst (inherited_entries objects)).

(** The property [field] of [objects], own first, if it has one among its
    entries. *)
Definition lookup_property (objects : value) (field : string) : option value :=
  match assoc field (own_entries objects) with
  | Some v => Some v
  | None => assoc field (inherited_entries objects)
  end.

(** [objects[field]] *)
Definition get_property (objects : value) (field : string) : value :=
  match lookup_property objects field with
  | Some v => v
  | None => VUndefined
  end.

(** [v[i]] for an array [v] *)
Definition index (v : value) (i : nat) : value :=
  match v with
  | VArray l => nth i l VUndefined
  | _ => VUndefined
  end.

(** Run a loop body on each key in turn; a throw ends the loop. *)
Fixpoint for_each (keys : list string) (body : string -> method unit) : method unit :=
  match keys with
  | [] => mret tt
  | k :: rest => _ ← body k; for_each rest body
  end.

(** [objects.hasOwnProperty(field)].  The method is looked up on the
    object: a map with an entry named [hasOwnProperty] hides the one of
    Object.prototype, and calling what is there throws unless it is a
    function (the entries of a map hold data, and the model runs no
    function of the caller). *)
Definition call_hasOwnProperty (objects : value) (field : string) : method bool :=
  match lookup_property objects "hasOwnProperty" with
  | None => mret (hasOwnProperty objects field)
  | Some _ => throw TypeError
  end.

(** *** Methods, in the order of the source *)

Definition reset : method unit :=
  assign (fun this =>
    {| client := client this; name := name this; segments := segments this;
       options := ∅;
       wheres := [];
       ordering := [];
       _group := VArray [];
       _limit := VNull;
       _offset := VNull;
       _remember := VNull |}).

Definition name_regexp : RegExp.regexp :=
  RegExp.Anchored
    (RegExp.Plus (RegExp.Class [RegExp.Range "a" "z"; RegExp.Single "_";
                                RegExp.Single "/"; RegExp.Range "0" "9"])).

Definition _validateName (name : value) : completion value :=
  if negb (RegExp.test name_regexp name) then
    Throw (Error ("Invalid name: " +:+ ToString name))
  else Normal name.

(** [new Collection(client, name)].  The result comes with the client as
    the call leaves it. *)
Definition constructor (client : Client.t) (name : value)
  : completion Collection * Client.t :=
  match _validateName name with
  | Throw e => (Throw e, client)
  | Normal name =>
      (Normal {| client := client; name := name;
                 segments := "collection/" +:+ ToString name;
                 options := ∅; wheres := []; ordering := []; _group := VArray [];
                 _limit := VNull; _offset := VNull; _remember := VNull |},
       client)
  end.


Definition select (arguments : list value) : method unit :=
  set_option "select" (VArguments arguments).

Definition shortnames : list (string * string) :=
  [ ("paginate", "p");
    ("first", "f");
    ("aggregation", "aggr");
    ("operation", "op");
    ("data", "data");
    ("with", "with");
    ("select", "select");
    ("distinct", "distinct") ].

(** The option loop of [buildQuery]: [if (this.options[f])] copies the
    option under its short name. *)
Definition apply_option (opts : gmap string value) (query : gmap string value)
    (entry : string * string) : gmap string value :=
  match opts !! entry.1 with
  | Some v => if truthy v then <[entry.2 := v]> query else query
  | None => query
  end.

Definition buildQuery : method (gmap string value) :=
  query ← mret (∅ : gmap string value);
  limit ← this_ _limit;
  offset ← this_ _offset;
  remember ← this_ _remember;
  query ← mret (if not_null limit then <["limit" := limit]> query else query);
  query ← mret (if not_null offset then <["offset" := offset]> query else query);
  query ← mret (if not_null remember then <["remember" := remember]> query else query);
  wheres ← this_ wheres;
  query ← mret (if length_gt_0 (VArray wheres) then <["q" := VArray wheres]> query
                else query);
  ordering ← this_ ordering;
  query ← mret (if length_gt_0 (VArray ordering) then <["s" := VArray ordering]> query
                else query);
  group ← this_ _group;
  query ← mret (if length_gt_0 group then <["g" := group]> query else query);
  opts ← this_ options;
  query ← mret (fold_left (apply_option opts) shortnames query);
  _ ← reset;
  mret query.

Definition get : method Client.promise :=
  segments ← this_ segments;
  query ← buildQuery;
  client_call Client.get segments (Client.Query query).

Definition addWhere (field operation value boolean : value) : method unit :=
  match operation with
  | VString op =>
      assign (fun this =>
        set_wheres (wheres this ++ [VArray [field; VString (toLowerCase op); value; boolean]])
                   this)
  | _ => throw TypeError
  end.

(** [where].  In the loop the source overwrites its locals [operation] and
    [value] on every round before it reads them, so each round depends on
    its own entry and on [boolean] only. *)
Definition where_ (objects _operation _value _boolean : value) : method unit :=
  let operation := if is_undefined _value then VString "=" else _operation in
  let value := if is_undefined _value then _operation else _value in
  let boolean := if is_undefined _boolean then VString "and" else _boolean in
  if String.eqb (typeof objects) "object" then
    for_each (for_in objects) (fun field =>
      has ← call_hasOwnProperty objects field;
      if has : bool then
        let operation := VString "=" in
        let entry := get_property objects field in
        if instanceof_Array entry then
          addWhere (VString field) (index entry 0) (index entry 1) boolean
        else
          addWhere (VString field) operation entry boolean
      else mret tt)
  else
    addWhere objects operation value boolean.

Definition orWhere (objects _operation _value : value) : method unit :=
  where_ objects _operation _value (VString "or").

Definition join (arguments : list value) : method unit :=
  set_option "with" (VArguments arguments).

Definition distinct : method unit :=
  set_option "distinct" (VBool true).

Definition group (arguments : list value) : method unit :=
  assign (set_group (VArguments arguments)).

(** [then]: the arguments are attached to the promise of [get]. *)
Definition then_ (arguments : list Client.continuation) : method Client.promise :=
  promise ← get;
  _ ← promise_then promise arguments;
  mret promise.

Definition sort (field direction : value) : method unit :=
  let direction :=
    if negb (truthy direction) then VString "asc"
    else if String.eqb (typeof direction) "number" then
      (if decide (parseInt direction = Some (-1)%Z) then VString "desc" else VString "asc")
    else direction in
  assign (fun this => set_ordering (ordering this ++ [VArray [field; direction]]) this).

Definition limit (int : value) : method unit := assign (set_limit int).

Definition offset (int : value) : method unit := assign (set_offset int).

Definition remember (minutes : value) : method unit := assign (set_remember minutes).

Definition channel (options : value) : method unit :=
  throw (Error "Not implemented.").

Section Paginate.

(** [Hook.defaults.perPage], the process-wide default page size. *)
Variable defaults_perPage : value.

Definition paginate (perPage onComplete onError : value) : method Client.Pagination :=
  segments ← this_ segments;
  pagination ← mret {| Client.collection := segments |};
  '(perPage, onComplete) ←
    mret (if negb (truthy onComplete) then (defaults_perPage, perPage)
          else (perPage, onComplete));
  _ ← set_option "paginate" perPage;
  _ ← then_ [Client.FetchComplete pagination onComplete; Client.Given onError];
  mret pagination.

End Paginate.

Definition drop : method Client.promise :=
  segments ← this_ segments;
  client_call Client.remove segments Client.Absent.

Definition remove (_id : value) : method Client.promise :=
  path ← this_ segments;
  path ← mret (if negb (is_undefined _id) then path +:+ "/" +:+ ToString _id else path);
  query ← buildQuery;
  client_call Client.remove path (Client.Query query).


Definition updateAll (data : value) : method Client.promise :=
  _ ← set_option "data" data;
  segments ← this_ segments;
  query ← buildQuery;
  client_call Client.put segments (Client.Query query).

(** *** The other terminal methods

    These read [arguments]; they take the list of the arguments of the
    call, a parameter that is not passed being [undefined]. *)

(** The [i]-th argument of a call. *)
Definition argument (arguments : list value) (i : nat) : value :=
  nth i arguments VUndefined.

(** [promise.then.apply(promise, args)] with arguments of the caller. *)
Definition then_apply (p : Client.promise) (args : list value) : method unit :=
  promise_then p (map Client.Given args).



(** The object literal [{method: m, field: field}]. *)
Definition aggregation (m : string) (field : value) : value :=
  VObject [("method", VString m); ("field", field)] [].

(** [count].  The body of a class is strict code: assigning to the
    parameter [field] leaves [arguments] as the caller passed them. *)
Definition count (arguments : list value) : method Client.promise :=
  let field := argument arguments 0 in
  let field := if is_undefined field then VString "*" else field in
  _ ← set_option "aggregation" (aggregation "count" field);
  promise ← get;
  _ ← (if (0 <? length arguments)%nat then then_apply promise arguments else mret tt);
  mret promise.

(** The body [max], [min], [avg] and [sum] share, up to the name of the
    aggregation. *)
Definition aggregate (m : string) (arguments : list value) : method Client.promise :=
  let field := argument arguments 0 in
  _ ← set_option "aggregation" (aggregation m field);
  promise ← get;
  _ ← (if (1 <? length arguments)%nat then then_apply promise (skipn 1 arguments)
       else mret tt);
  mret promise.

Definition max (arguments : list value) : method Client.promise :=
  aggregate "max" arguments.

Definition min (arguments : list value) : method Client.promise :=
  aggregate "min" arguments.

Definition avg (arguments : list value) : method Client.promise :=
  aggregate "avg" arguments.

Definition sum (arguments : list value) : method Client.promise :=
  aggregate "sum" arguments.

Definition first (arguments : list value) : method Client.promise :=
  _ ← set_option "first" (VNumber (Finite false [d1] 1));
  promise ← get;
  _ ← then_apply promise arguments;
  mret promise.

Definition firstOrCreate (data : value) : method Client.promise :=
  _ ← set_option "first" (VNumber (Finite false [d1] 1));
  _ ← set_option "data" data;
  segments ← this_ segments;
  query ← buildQuery;
  client_call Client.post segments (Client.Query query).

(** The object literal [{method: m, field: field, value: value}]. *)
Definition operation (m : string) (field v : value) : value :=
  VObject [("method", VString m); ("field", field); ("value", v)] [].

(** The body [increment] and [decrement] share, up to the name of the
    operation. *)
Definition operate (m : string) (arguments : list value) : method Client.promise :=
  let field := argument arguments 0 in
  let value := argument arguments 1 in
  _ ← set_option "operation" (operation m field value);
  segments ← this_ segments;
  query ← buildQuery;
  promise ← client_call Client.put segments (Client.Query query);
  _ ← (if (0 <? length arguments)%nat then then_apply promise arguments else mret tt);
  mret promise.

Definition increment (arguments : list value) : method Client.promise :=
  operate "increment" arguments.

Definition decrement (arguments : list value) : method Client.promise :=
  operate "decrement" arguments.

(** ** Definitions used by the statements *)

(** What [buildQuery] returns on [this], and [this] once it has run. *)
Definition descriptor (this : Collection) : gmap string value :=
  match (buildQuery this).1 with
  | Normal query => query
  | Throw _ => ∅
  end.

Definition cleared (this : Collection) : Collection := (reset this).2.

(** The seven components of the accumulator. *)
Definition accumulator (this : Collection) :=
  (wheres this, ordering this, _group this, options this,
   _limit this, _offset this, _remember this).

(** The client after one more call. *)
Definition sent (v : Client.verb) (path : string) (b : Client.payload)
    (thens : list (list Client.continuation)) (c : Client.t) : Client.t :=
  {| Client.requests :=
       Client.requests c ++
       [{| Client.verb_of := v; Client.path := path; Client.body := b;
           Client.thens := thens |}] |}.

(** The name charset as the specification words it: lowercase letters,
    digits, underscore, slash. *)
Definition name_char (c : ascii) : bool :=
  let n := nat_of_ascii c in
  ((97 <=? n) && (n <=? 122) || (48 <=? n) && (n <=? 57) || (n =? 95) || (n =? 47))%nat.

Fixpoint all_name_chars (s : string) : bool :=
  match s with
  | EmptyString => true
  | String c rest => name_char c && all_name_chars rest
  end.

(** A valid name: not empty, and every character in the charset. *)
Definition valid_name (s : string) : bool :=
  negb (String.eqb s "") && all_name_chars s.

(** A fresh builder on the collection [posts], over a client that has sent
    nothing yet. *)
Definition no_requests : Client.t := {| Client.requests := [] |}.

Definition posts : Collection :=
  {| client := no_requests; name := VString "posts"; segments := "collection/posts";
     options := ∅; wheres := []; ordering := []; _group := VArray [];
     _limit := VNull; _offset := VNull; _remember := VNull |}.

(** Number literals. *)
Definition num_0 : value := VNumber (Zero false).
Definition num_1 : value := VNumber (Finite false [d1] 1).
Definition num_2 : value := VNumber (Finite false [d2] 1).
Definition num_20 : value := VNumber (Finite false [d2] 2).
Definition num_50 : value := VNumber (Finite false [d5] 2).
Definition num_minus_1 : value := VNumber (Finite true [d1] 1).
Definition num_minus_1_5 : value := VNumber (Finite true [d1; d5] 1).


(** [Some v] when [b] holds. *)
Definition present (b : bool) (v : value) : option value :=
  if b then Some v else None.

(** The first of two optional values that is there. *)
Definition or_else (o1 o2 : option value) : option value :=
  match o1 with
  | Some v => Some v
  | None => o2
  end.

(** The option [f] of [this], when it is set to a truthy value. *)
Definition truthy_option (this : Collection) (f : string) : option value :=
  options this !! f ≫= fun v => present (truthy v) v.

(** What each key of the descriptor is drawn from: the three scalars when
    they are not null, the three lists when they are not empty, the eight
    options when they are truthy. *)
Definition key_source (this : Collection) (k : string) : option value :=
  if String.eqb k "limit" then present (not_null (_limit this)) (_limit this)
  else if String.eqb k "offset" then present (not_null (_offset this)) (_offset this)
  else if String.eqb k "remember" then present (not_null (_remember this)) (_remember this)
  else if String.eqb k "q" then
    present (negb (Nat.eqb (length (wheres this)) 0)) (VArray (wheres this))
  else if String.eqb k "s" then
    present (negb (Nat.eqb (length (ordering this)) 0)) (VArray (ordering this))
  else if String.eqb k "g" then present (length_gt_0 (_group this)) (_group this)
  else if String.eqb k "p" then truthy_option this "paginate"
  else if String.eqb k "f" then truthy_option this "first"
  else if String.eqb k "aggr" then truthy_option this "aggregation"
  else if String.eqb k "op" then truthy_option this "operation"
  else if String.eqb k "data" then truthy_option this "data"
  else if String.eqb k "with" then truthy_option this "with"
  else if String.eqb k "select" then truthy_option this "select"
  else if String.eqb k "distinct" then truthy_option this "distinct"
  else None.


(** The claim C4 on [select()] as worded: after [select] with no
    argument, the compiled descriptor has no key [select]. *)
Definition empty_select_is_left_out (this : Collection) : Prop :=
  descriptor (select [] this).2 !! "select" = None.

(** A clause as [addWhere] stores it. *)
Definition clause (field operation : string) (v boolean : value) : value :=
  VArray [VString field; VString operation; v; boolean].

(** The clause an entry of a map stands for: a pair [[operator, value]]
    gives the operator, lower-cased, and the value; a bare value is
    compared with [=]. *)
Definition entry_clause (boolean : value) (e : string * value) : value :=
  match e.2 with
  | VArray [VString op; v] => clause e.1 (toLowerCase op) v boolean
  | v => clause e.1 "=" v boolean
  end.

(** The entries the claim C6 speaks of: a bare value, that is anything but
    an array, or a pair whose first element is a string. *)
Definition entry_ok (e : string * value) : bool :=
  match e.2 with
  | VArray [VString _; _] => true
  | VArray _ => false
  | _ => true
  end.

(** A number is well formed when its digits are. *)
Definition number_wf (v : value) : Prop :=
  match v with
  | VNumber (Finite _ s _) => digits_wf s
  | _ => True
  end.

(** The numbers that [parseInt(x, 10)] takes to [-1]: the negative numbers
    whose first digit is 1 and that either lie in the interval from -2
    (excluded) to -1 (exponent [n = 1]: -1, -1.5, ...) or print in
    exponent notation (-1e+21, -1.5e-7, ...). *)
Definition parses_to_minus_1 (x : number) : bool :=
  match x with
  | Finite true (d1 :: _) n => (n =? 1)%Z || (n <=? -6)%Z || (21 <? n)%Z
  | _ => false
  end.

(** The direction [sort] stores. *)
Definition stored_direction (direction : value) : value :=
  if truthy direction then
    match direction with
    | VNumber x => VString (if parses_to_minus_1 x then "desc" else "asc")
    | _ => direction
    end
  else VString "asc".

(** *** Chains of calls

    The calls of the modifiers and of the terminal methods as data, so
    that a statement can range over every chain of calls. *)

Inductive modifier :=
| Select (arguments : list value)
| Join (arguments : list value)
| Distinct
| Group (arguments : list value)
| Where (objects _operation _value _boolean : value)
| OrWhere (objects _operation _value : value)
| Sort (field direction : value)
| Limit (int : value)
| Offset (int : value)
| Remember (minutes : value)
| Reset.

Definition call (m : modifier) : method unit :=
  match m with
  | Select arguments => select arguments
  | Join arguments => join arguments
  | Distinct => distinct
  | Group arguments => group arguments
  | Where objects _operation _value _boolean =>
      where_ objects _operation _value _boolean
  | OrWhere objects _operation _value => orWhere objects _operation _value
  | Sort field direction => sort field direction
  | Limit int => limit int
  | Offset int => offset int
  | Remember minutes => remember minutes
  | Reset => reset
  end.

(** [this.m1(...).m2(...)...]: the calls in turn, up to the first that
    throws. *)
Fixpoint chain (ms : list modifier) : method unit :=
  match ms with
  | [] => mret tt
  | m :: rest => _ ← call m; chain rest
  end.

(** The component of the accumulator a modifier writes; [reset] writes
    them all. *)
Definition component (m : modifier) : option string :=
  match m with
  | Select _ => Some "options.select"
  | Join _ => Some "options.with"
  | Distinct => Some "options.distinct"
  | Group _ => Some "_group"
  | Where _ _ _ _ | OrWhere _ _ _ => Some "wheres"
  | Sort _ _ => Some "ordering"
  | Limit _ => Some "_limit"
  | Offset _ => Some "_offset"
  | Remember _ => Some "_remember"
  | Reset => None
  end.

(** Two modifiers that write different components. *)
Definition independent (m1 m2 : modifier) : bool :=
  match component m1, component m2 with
  | Some c1, Some c2 => negb (String.eqb c1 c2)
  | _, _ => false
  end.






(** The accumulator of a fresh or reset builder. *)
Definition empty_accumulator :=
  (@nil value, @nil value, VArray [], (∅ : gmap string value), VNull, VNull, VNull).

(** The continuations [then.apply] attaches when the source guards the
    call by the number of arguments. *)
Definition attached (guard : bool) (args : list value)
  : list (list Client.continuation) :=
  if guard then [map Client.Given args] else [].

(** A method that only adds clauses: whatever the builder, it ends the
    same way and leaves the builder with the clauses [added] after those it
    had, and nothing else changed. *)
Definition appends (m : method unit) (r : completion unit) (added : list value)
  : Prop :=
  forall this, m this = (r, set_wheres (wheres this ++ added) this).

(** The two ways [where] ends: it returns, or it throws a TypeError. *)
Definition returns_or_TypeError (r : completion unit) : Prop :=
  r = Normal tt \/ r = Throw TypeError.





(** ** Regular expressions: the matcher against the denotation *)

Module RegExpFacts.
Import RegExp.

Lemma append_nil_inv (s t : string) : s +:+ t = "" -> s = "" /\ t = "".
Proof. destruct s; simpl; [tauto | discriminate]. Qed.

Lemma nullable_lang (p : pattern) : nullable p = true <-> lang p "".
Proof.
  induction p as [| | items | p IHp q IHq | p IHp q IHq | p IHp]; simpl.
  - split; [discriminate | tauto].
  - tauto.
  - split; [discriminate | intros (c & H & _); discriminate].
  - rewrite andb_true_iff, IHp, IHq. split.
    + intros [Hp Hq]. exists "", "". auto.
    + intros (s1 & s2 & Hs & Hp & Hq).
      symmetry in Hs. apply append_nil_inv in Hs as [-> ->]. auto.
  - rewrite orb_true_iff, IHp, IHq. tauto.
  - split; [intros _; constructor | reflexivity].
Qed.

(** A word of [L*] that starts with [c] is a non-empty word of [L]
    starting with [c], followed by a word of [L*]. *)
Lemma star_cons_inv (L : string -> Prop) (w : string) :
  star L w ->
  forall c s, w = String c s ->
  exists s1 s2, s = s1 +:+ s2 /\ L (String c s1) /\ star L s2.
Proof.
  induction 1 as [| u t Hu Ht IH]; intros c s Hw.
  - discriminate.
  - destruct u as [| a u'].
    + simpl in Hw. eauto.
    + simpl in Hw. injection Hw as -> <-. eauto.
Qed.

Lemma deriv_lang (c : ascii) (p : pattern) :
  forall s, lang (deriv c p) s <-> lang p (String c s).
Proof.
  induction p as [| | items | p IHp q IHq | p IHp q IHq | p IHp]; intros s; simpl.
  - tauto.
  - split; [tauto | discriminate].
  - destruct (class_has items c) eqn:Hc; simpl.
    + split.
      * intros ->. eauto.
      * intros (a & Ha & _). now injection Ha.
    + split; [tauto |].
      intros (a & Ha & Hin). injection Ha as <- _. congruence.
  - assert (Hcat : lang (Cat (deriv c p) q) s <->
                   exists s1 s2, s = s1 +:+ s2 /\ lang p (String c s1) /\ lang q s2).
    { simpl. split; intros (s1 & s2 & Hs & Hp & Hq); exists s1, s2;
        (split; [assumption | split; [apply IHp |]; assumption]). }
    destruct (nullable p) eqn:Hn.
    + simpl lang at 1. fold (lang (Cat (deriv c p) q) s).
      rewrite Hcat, IHq. split.
      * intros [(s1 & s2 & -> & Hp & Hq) | Hq].
        -- exists (String c s1), s2. auto.
        -- exists "", (String c s). repeat split; [| assumption].
           now apply nullable_lang.
      * intros (s1 & s2 & Hs & Hp & Hq). destruct s1 as [| a s1'].
        -- simpl in Hs. subst s2. now right.
        -- simpl in Hs. injection Hs as <- ->. left. eauto.
    + rewrite Hcat. split.
      * intros (s1 & s2 & -> & Hp & Hq). exists (String c s1), s2. auto.
      * intros (s1 & s2 & Hs & Hp & Hq). destruct s1 as [| a s1'].
        -- apply nullable_lang in Hp. congruence.
        -- simpl in Hs. injection Hs as <- ->. eauto.
  - now rewrite IHp, IHq.
  - split.
    + intros (s1 & s2 & -> & Hp & Hs).
      change (star (lang p) (String c s1 +:+ s2)).
      constructor; [now apply IHp | assumption].
    + intros H. destruct (star_cons_inv _ _ H c s eq_refl) as (s1 & s2 & -> & Hp & Hs).
      exists s1, s2. repeat split; [now apply IHp | assumption].
Qed.

Lemma matches_lang (s : string) : forall p, matches p s = true <-> lang p s.
Proof.
  induction s as [| c s IH]; intros p; simpl.
  - apply nullable_lang.
  - now rewrite IH, deriv_lang.
Qed.

(** The words of [[items]*] are the words over the class. *)
Lemma star_class (items : list class_item) (s : string) :
  star (lang (Class items)) s <-> all_in_class items s = true.
Proof.
  split.
  - induction 1 as [| u t (c & -> & Hc) _ IH]; simpl; [reflexivity |].
    now rewrite Hc, IH.
  - induction s as [| c s IH]; simpl; intros H.
    + constructor.
    + apply andb_true_iff in H as [Hc Hs].
      change (star (lang (Class items)) (String c "" +:+ s)).
      constructor; [simpl; eauto | auto].
Qed.

(** [[items]+] matches the non-empty words over the class. *)
Lemma matches_plus_class (items : list class_item) (s : string) :
  matches (Plus (Class items)) s = negb (String.eqb s "") && all_in_class items s.
Proof.
  apply eq_true_iff_eq. rewrite matches_lang. unfold Plus.
  change (lang (Cat (Class items) (Star (Class items))) s)
    with (exists s1 s2, s = s1 +:+ s2 /\ lang (Class items) s1 /\
                        star (lang (Class items)) s2).
  split.
  - intros (s1 & s2 & -> & (c & -> & Hc) & Hs). simpl.
    apply star_class in Hs. now rewrite Hc, Hs.
  - destruct s as [| c s]; simpl; [discriminate |].
    intros H. apply andb_true_iff in H as [Hc Hs].
    exists (String c ""), s. repeat split; [simpl; eauto | now apply star_class].
Qed.

End RegExpFacts.

(** ** The name validator *)

(** [posts] is the builder [new Collection(client, "posts")] returns. *)
Lemma posts_constructed :
  constructor no_requests (VString "posts") = (Normal posts, no_requests).
Proof. reflexivity. Qed.

Lemma name_class_has (c : ascii) :
  RegExp.class_has
    [RegExp.Range "a" "z"; RegExp.Single "_"; RegExp.Single "/"; RegExp.Range "0" "9"] c
  = name_char c.
Proof. destruct c as [[] [] [] [] [] [] [] []]; reflexivity. Qed.

Lemma name_regexp_test (s : string) :
  RegExp.test name_regexp (VString s) = valid_name s.
Proof.
  unfold RegExp.test, name_regexp, valid_name. cbn [RegExp.body ToString].
  rewrite RegExpFacts.matches_plus_class. f_equal.
  induction s as [| c s IH]; [reflexivity |].
  cbn [RegExp.all_in_class all_name_chars].
  now rewrite name_class_has, IH.
Qed.

(** C5.  For every string [s], constructing a builder on the name [s]
    succeeds exactly when [s] is a valid name, that is, matches
    [^[a-z_/0-9]+$]: then the builder is returned, empty, on the path
    [collection/s]; for every other string the construction throws the
    error [Invalid name: s].  Either way the client is left as it was. *)
Theorem construction_validates_name (client : Client.t) (s : string) :
  constructor client (VString s) =
    if valid_name s then
      (Normal {| client := client; name := VString s;
                 segments := "collection/" +:+ s;
                 options := ∅; wheres := []; ordering := []; _group := VArray [];
                 _limit := VNull; _offset := VNull; _remember := VNull |},
       client)
    else (Throw (Error ("Invalid name: " +:+ s)), client).
Proof.
  unfold constructor, _validateName. rewrite name_regexp_test.
  destruct (valid_name s); reflexivity.
Qed.

(** ** Compile and reset *)

Lemma buildQuery_eq (this : Collection) :
  buildQuery this = (Normal (descriptor this), cleared this).
Proof. reflexivity. Qed.

Lemma descriptor_cleared (this : Collection) : descriptor (cleared this) = ∅.
Proof. reflexivity. Qed.

Lemma cleared_cleared (this : Collection) : cleared (cleared this) = cleared this.
Proof. reflexivity. Qed.

(** C7.  Compiling always returns normally and leaves the accumulator
    reset to its defaults; so compiling twice in a row, with no modifier
    call in between, yields the empty descriptor the second time. *)
Theorem buildQuery_resets (this : Collection) :
  (exists query, buildQuery this = (Normal query, cleared this)) /\
  accumulator (cleared this) = ([], [], VArray [], ∅, VNull, VNull, VNull) /\
  buildQuery (cleared this) = (Normal ∅, cleared this) /\
  (_ ← buildQuery; buildQuery) this = (Normal ∅, cleared this).
Proof.
  repeat split. exists (descriptor this). apply buildQuery_eq.
Qed.

(** ** channel *)

(** C9.  Whatever the state of the builder, [channel] throws the error
    [Not implemented.] and leaves the builder, and with it the log of the
    client, as it was: nothing is sent. *)
Theorem channel_not_implemented (this : Collection) (options : value) :
  channel options this = (Throw (Error "Not implemented."), this) /\
  client (channel options this).2 = client this.
Proof. split; reflexivity. Qed.

(** ** Writes that bypass the compiler *)




(** ** update *)



(** ** The keys of the descriptor *)

Lemma lookup_insert_if (b : bool) (k' : string) (v : value)
    (q : gmap string value) (k : string) :
  (if b then <[k' := v]> q else q) !! k =
    or_else (if String.eqb k k' then present b v else None) (q !! k).
Proof.
  destruct (String.eqb_spec k k') as [-> | Hne], b; simpl; try reflexivity.
  - now rewrite lookup_insert_eq.
  - now rewrite lookup_insert_ne.
Qed.

Lemma lookup_apply_option (opts q : gmap string value) (f short k : string) :
  apply_option opts q (f, short) !! k =
    or_else (if String.eqb k short then opts !! f ≫= fun v => present (truthy v) v
             else None)
            (q !! k).
Proof.
  unfold apply_option. cbn [fst snd].
  destruct (opts !! f) as [v |]; cbn [mbind option_bind].
  - apply lookup_insert_if.
  - now destruct (String.eqb k short).
Qed.

Lemma descriptor_eq (this : Collection) :
  descriptor this =
    let query : gmap string value := ∅ in
    let query := if not_null (_limit this) then <["limit" := _limit this]> query
                 else query in
    let query := if not_null (_offset this) then <["offset" := _offset this]> query
                 else query in
    let query := if not_null (_remember this) then <["remember" := _remember this]> query
                 else query in
    let query := if negb (Nat.eqb (length (wheres this)) 0)
                 then <["q" := VArray (wheres this)]> query else query in
    let query := if negb (Nat.eqb (length (ordering this)) 0)
                 then <["s" := VArray (ordering this)]> query else query in
    let query := if length_gt_0 (_group this) then <["g" := _group this]> query
                 else query in
    apply_option (options this)
      (apply_option (options this)
        (apply_option (options this)
          (apply_option (options this)
            (apply_option (options this)
              (apply_option (options this)
                (apply_option (options this)
                  (apply_option (options this) query ("paginate", "p"))
                  ("first", "f"))
                ("aggregation", "aggr"))
              ("operation", "op"))
            ("data", "data"))
          ("with", "with"))
        ("select", "select"))
      ("distinct", "distinct").
Proof.
  unfold descriptor.
  cbv [buildQuery mbind method_bind mret method_ret this_ reset assign fst snd
       fold_left shortnames length_gt_0].
  reflexivity.
Qed.

Lemma descriptor_lookup (this : Collection) (k : string) :
  descriptor this !! k = key_source this k.
Proof.
  rewrite descriptor_eq. unfold key_source, truthy_option. cbv zeta.
  rewrite !lookup_apply_option, !lookup_insert_if, lookup_empty.
  repeat match goal with
         | |- context [String.eqb k ?x] =>
             destruct (String.eqb_spec k x) as [-> | ?];
             [cbn [String.eqb Ascii.eqb Bool.eqb or_else];
              match goal with
              | |- or_else ?o _ = _ => destruct o; reflexivity
              end |]
         end.
  reflexivity.
Qed.

(** C4, refuted as worded.  After [select()] the descriptor has the key
    [select], mapped to the empty argument list; and after [updateAll(0)]
    the option [data] is set, yet the descriptor sent has no key [data]. *)
Lemma empty_select_is_compiled :
  ~ empty_select_is_left_out posts /\
  descriptor (select [] posts).2 = {[ "select" := VArguments [] ]} /\
  length_gt_0 (VArguments []) = false /\
  (set_option "data" num_0 posts).2.(options) !! "data" = Some num_0 /\
  Client.requests (client (updateAll num_0 posts).2) =
    [{| Client.verb_of := Client.put; Client.path := "collection/posts";
        Client.body := Client.Query ∅; Client.thens := [] |}].
Proof.
  split; [| repeat split].
  unfold empty_select_is_left_out. rewrite descriptor_lookup. discriminate.
Qed.

(** C4, amended.  For every accumulator state and every key, the compiled
    descriptor holds the key exactly as [key_source] says: [limit],
    [offset], [remember] when the scalar is not null; [q], [s], [g] when
    the clause list, the ordering, the grouping is not empty; [p], [f],
    [aggr], [op], [data], [with], [select], [distinct] when the option
    [paginate], [first], [aggregation], [operation], [data], [with],
    [select], [distinct] holds a truthy value; and no other key.  A key
    that is present carries the state component as it is; under [q], [s]
    and [g] that is never an empty list. *)
Theorem descriptor_keys (this : Collection) (k : string) :
  descriptor this !! k = key_source this k /\
  descriptor this !! "q" <> Some (VArray []) /\
  descriptor this !! "s" <> Some (VArray []) /\
  descriptor this !! "g" <> Some (VArray []) /\
  descriptor this !! "g" <> Some (VArguments []).
Proof.
  rewrite !descriptor_lookup. unfold key_source, present.
  cbn [String.eqb Ascii.eqb Bool.eqb].
  split; [reflexivity |].
  repeat split.
  - destruct (wheres this); discriminate.
  - destruct (ordering this); discriminate.
  - intros H. destruct (length_gt_0 (_group this)) eqn:Hg; [| discriminate H].
    injection H as H. rewrite H in Hg. discriminate Hg.
  - intros H. destruct (length_gt_0 (_group this)) eqn:Hg; [| discriminate H].
    injection H as H. rewrite H in Hg. discriminate Hg.
Qed.

(** ** remove *)




(** ** where *)

Lemma set_wheres_id (this : Collection) : set_wheres (wheres this) this = this.
Proof. now destruct this. Qed.

Lemma set_wheres_set_wheres (l l' : list value) (this : Collection) :
  set_wheres l' (set_wheres l this) = set_wheres l' this.
Proof. reflexivity. Qed.

Lemma addWhere_string (field : value) (op : string) (v boolean : value)
    (this : Collection) :
  addWhere field (VString op) v boolean this =
    (Normal tt,
     set_wheres (wheres this ++ [VArray [field; VString (toLowerCase op); v; boolean]])
                this).
Proof. reflexivity. Qed.

Lemma for_each_app (l1 l2 : list string) (body : string -> method unit)
    (this : Collection) :
  for_each (l1 ++ l2) body this = (_ ← for_each l1 body; for_each l2 body) this.
Proof.
  revert this. induction l1 as [| k l1 IH]; intros this; [reflexivity |].
  cbn [for_each app]. unfold mbind, method_bind in *.
  destruct (body k this) as [[[] | e] this']; [apply IH | reflexivity].
Qed.

Lemma assoc_NoDup (own : list (string * value)) :
  NoDup own.*1 -> forall e, e ∈ own -> assoc e.1 own = Some e.2.
Proof.
  induction own as [| [k v] own IH]; intros Hnd e He; [now apply elem_of_nil in He |].
  rewrite fmap_cons in Hnd. apply NoDup_cons in Hnd as [Hk Hnd]. cbn [fst] in Hk.
  cbn [assoc].
  apply elem_of_cons in He as [-> | He].
  - cbn [fst snd]. now rewrite String.eqb_refl.
  - destruct (String.eqb_spec e.1 k) as [Heq | _]; [| now apply IH].
    exfalso. apply Hk. subst k. apply list_elem_of_fmap. exists e. auto.
Qed.

(** The loop of [where] over own keys: one clause for each, in order. *)
Lemma where_loop_own (own inherited l : list (string * value)) (boolean : value) :
  lookup_property (VObject own inherited) "hasOwnProperty" = None ->
  (forall e, e ∈ l -> assoc e.1 own = Some e.2) ->
  forallb entry_ok l = true ->
  forall this,
    for_each l.*1 (fun field =>
      has ← call_hasOwnProperty (VObject own inherited) field;
      if has : bool then
        let operation := VString "=" in
        let entry := get_property (VObject own inherited) field in
        if instanceof_Array entry then
          addWhere (VString field) (index entry 0) (index entry 1) boolean
        else
          addWhere (VString field) operation entry boolean
      else mret tt) this =
    (Normal tt, set_wheres (wheres this ++ map (entry_clause boolean) l) this).
Proof.
  intros Hcall. induction l as [| [k v] l IH]; intros Hl Hok this.
  - simpl. now rewrite app_nil_r, set_wheres_id.
  - cbn [fmap list_fmap for_each fst]. simpl in Hok.
    apply andb_true_iff in Hok as [Hkv Hok].
    assert (Hk : assoc k own = Some v) by (apply (Hl (k, v)); left).
    unfold mbind at 1, method_bind at 1.
    unfold call_hasOwnProperty at 1. rewrite Hcall.
    unfold mbind at 1, method_bind at 1, mret at 1, method_ret at 1.
    unfold hasOwnProperty, get_property, lookup_property. cbn [own_entries]. rewrite Hk.
    assert (Hstep :
      (if instanceof_Array v
       then addWhere (VString k) (index v 0) (index v 1) boolean
       else addWhere (VString k) (VString "=") v boolean) this =
      (Normal tt, set_wheres (wheres this ++ [entry_clause boolean (k, v)]) this)).
    { unfold entry_ok, entry_clause in *. cbn [snd fst] in *.
      destruct v as [| | | | | | [| [] [| ? []]] | |]; try discriminate Hkv;
        reflexivity. }
    cbv zeta. rewrite Hstep.
    rewrite IH; [| intros e He; apply Hl; now right | assumption].
    cbn [map]. rewrite set_wheres_set_wheres.
    change (wheres (set_wheres ?l this)) with l.
    now rewrite <- app_assoc.
Qed.

(** The loop of [where] skips the keys that are not own. *)
Lemma where_loop_inherited (objects : value) (body : string -> method unit)
    (l : list string) :
  lookup_property objects "hasOwnProperty" = None ->
  Forall (fun k => hasOwnProperty objects k = false) l ->
  forall this,
    for_each l (fun field =>
      has ← call_hasOwnProperty objects field;
      if has : bool then body field else mret tt) this = (Normal tt, this).
Proof.
  intros Hcall. induction 1 as [| k l Hk _ IH]; intros this; [reflexivity |].
  cbn [for_each]. unfold mbind at 1, method_bind at 1.
  unfold call_hasOwnProperty at 1. rewrite Hcall.
  unfold mbind at 1, method_bind at 1, mret at 1, method_ret at 1.
  rewrite Hk. apply IH.
Qed.

Lemma where_map (own inherited : list (string * value))
    (_operation _value _boolean : value) (this : Collection) :
  lookup_property (VObject own inherited) "hasOwnProperty" = None ->
  NoDup own.*1 ->
  forallb entry_ok own = true ->
  where_ (VObject own inherited) _operation _value _boolean this =
    (Normal tt,
     set_wheres
       (wheres this ++
        map (entry_clause (if is_undefined _boolean then VString "and" else _boolean)) own)
       this).
Proof.
  intros Hcall Hnd Hok. unfold where_. cbn [typeof String.eqb Ascii.eqb Bool.eqb].
  unfold for_in. cbn [own_entries inherited_entries].
  rewrite for_each_app. unfold mbind at 1, method_bind at 1.
  change (map fst own) with (own.*1).
  rewrite (where_loop_own own inherited own);
    [| assumption | now apply assoc_NoDup | assumption].
  apply where_loop_inherited; [assumption |].
  apply List.Forall_forall. intros k Hk.
  apply List.filter_In in Hk as [_ Hk]. now apply negb_true_iff in Hk.
Qed.

(** C6, refuted as worded.  With the value [undefined] the two call shapes
    differ: [where("a", undefined)] stores the clause
    [(a, "=", undefined, "and")], while [where("a", "=", undefined)] is
    taken for the two-argument shape and stores [(a, "=", "=", "and")]. *)
Lemma where_undefined_value_differs :
  wheres (where_ (VString "a") VUndefined VUndefined VUndefined posts).2 =
    [clause "a" "=" VUndefined (VString "and")] /\
  wheres (where_ (VString "a") (VString "=") VUndefined VUndefined posts).2 =
    [clause "a" "=" (VString "=") (VString "and")] /\
  where_ (VString "a") VUndefined VUndefined VUndefined posts <>
  where_ (VString "a") (VString "=") VUndefined VUndefined posts.
Proof. repeat split. discriminate. Qed.

(** A map with an entry named [hasOwnProperty] makes the loop of [where]
    throw on its first round: the entry hides the method the loop
    calls. *)
Lemma where_map_hiding_hasOwnProperty :
  where_ (VObject [("hasOwnProperty", num_1)] []) VUndefined VUndefined VUndefined posts
  = (Throw TypeError, posts).
Proof. reflexivity. Qed.

(** C6, amended.  For every field [f] and every value [v] other than
    [undefined], [where(f, v)] and [where(f, "=", v)] do the same: they
    add the one clause [(f, "=", v, "and")] after the clauses already
    there.  For every map whose entries are bare values or pairs
    [[operator, value]], and none of them named [hasOwnProperty],
    [where(map)] adds one clause for each own entry, in the order of the
    entries: [(key, "=", value, "and")] for a bare value and
    [(key, operator lower-cased, value, "and")] for a pair. *)
Theorem where_normalizes (this : Collection) (f : string) (v : value)
    (own inherited : list (string * value)) :
  v <> VUndefined ->
  lookup_property (VObject own inherited) "hasOwnProperty" = None ->
  NoDup own.*1 ->
  forallb entry_ok own = true ->
  where_ (VString f) v VUndefined VUndefined this =
    (Normal tt, set_wheres (wheres this ++ [clause f "=" v (VString "and")]) this) /\
  where_ (VString f) (VString "=") v VUndefined this =
    (Normal tt, set_wheres (wheres this ++ [clause f "=" v (VString "and")]) this) /\
  where_ (VObject own inherited) VUndefined VUndefined VUndefined this =
    (Normal tt,
     set_wheres (wheres this ++ map (entry_clause (VString "and")) own) this).
Proof.
  intros Hv Hcall Hnd Hok. split; [| split].
  - destruct v; reflexivity.
  - destruct v; try reflexivity. contradiction.
  - now rewrite where_map.
Qed.

(** On a fresh builder: [where("a", 1)] and [where("a", "=", 1)] both leave
    the single clause [(a, "=", 1, "and")], and
    [where({a: 1, b: [">", 2]})] leaves
    [[(a, "=", 1, "and"), (b, ">", 2, "and")]]. *)
Lemma where_normalizes_witness :
  where_ (VString "a") num_1 VUndefined VUndefined posts =
    (Normal tt, set_wheres [clause "a" "=" num_1 (VString "and")] posts) /\
  where_ (VString "a") (VString "=") num_1 VUndefined posts =
    (Normal tt, set_wheres [clause "a" "=" num_1 (VString "and")] posts) /\
  where_ (VObject [("a", num_1); ("b", VArray [VString ">"; num_2])] [])
         VUndefined VUndefined VUndefined posts =
    (Normal tt,
     set_wheres [clause "a" "=" num_1 (VString "and");
                 clause "b" ">" num_2 (VString "and")] posts).
Proof.
  apply (where_normalizes posts "a" num_1
           [("a", num_1); ("b", VArray [VString ">"; num_2])] []).
  - discriminate.
  - reflexivity.
  - apply NoDup_cons. split; [| apply NoDup_singleton].
    intros H. apply list_elem_of_singleton in H. discriminate H.
  - reflexivity.
Defined.

(** ** parseInt on the string form of a number *)

Lemma char_digit_digit_char (d : digit) : char_digit (digit_char d) = Some d.
Proof. now destruct d. Qed.

Lemma digits_string_cons (d : digit) (l : list digit) :
  digits_string (d :: l) = String (digit_char d) (digits_string l).
Proof. reflexivity. Qed.

Lemma digits_prefix_digits_string (l : list digit) (t : string) :
  digits_prefix (digits_string l +:+ t) = (l ++ digits_prefix t)%list.
Proof.
  induction l as [| d l IH]; [reflexivity |].
  rewrite digits_string_cons. cbn [String.append digits_prefix].
  now rewrite char_digit_digit_char, IH.
Qed.

(** A sign, then digits, then something that does not start with a digit:
    parseInt reads the digits. *)
Lemma parseInt_string_digits (neg : bool) (d : digit) (l : list digit) (t : string) :
  digits_prefix t = [] ->
  parseInt_string (sign_string neg +:+ digits_string (d :: l) +:+ t) =
    Some ((if neg then -1 else 1) * digits_Z (d :: l))%Z.
Proof.
  intros Ht.
  assert (Hp : digits_prefix (digits_string (d :: l) +:+ t) = d :: l).
  { now rewrite digits_prefix_digits_string, Ht, app_nil_r. }
  unfold parseInt_string. destruct neg; cbn [sign_string String.append].
  - cbn [skip_white_space]. change (is_white_space "-") with false. cbv iota.
    now rewrite Hp.
  - rewrite digits_string_cons in *. cbn [String.append] in *.
    destruct d; cbn [digit_char skip_white_space] in *;
      match goal with
      | |- context [is_white_space ?c] => change (is_white_space c) with false
      end; cbv iota; now rewrite Hp.
Qed.

Lemma digits_Z_acc_ge (l : list digit) :
  forall acc, (0 <= acc)%Z ->
    (acc <= fold_left (fun acc d => 10 * acc + digit_value d) l acc)%Z.
Proof.
  induction l as [| d l IH]; intros acc Hacc; cbn [fold_left]; [lia |].
  assert (0 <= digit_value d)%Z by (destruct d; cbn [digit_value]; lia).
  specialize (IH (10 * acc + digit_value d)%Z ltac:(lia)). lia.
Qed.

(** Digits that start with a non-zero digit make 1 only when they are the
    single digit 1. *)
Lemma digits_Z_1 (d : digit) (l : list digit) :
  d <> d0 -> (digits_Z (d :: l) = 1%Z <-> d = d1 /\ l = []).
Proof.
  intros Hd. split.
  - unfold digits_Z. cbn [fold_left]. intros H.
    assert (Hd1 : (1 <= digit_value d)%Z).
    { destruct d; cbn [digit_value]; try lia. contradiction. }
    destruct l as [| d' l]; cbn [fold_left] in H.
    + split; [| reflexivity].
      destruct d; cbn [digit_value] in H; try lia. reflexivity.
    + assert (Hd' : (0 <= digit_value d')%Z) by (destruct d'; cbn [digit_value]; lia).
      pose proof (digits_Z_acc_ge l (10 * (10 * 0 + digit_value d) + digit_value d')%Z
                    ltac:(lia)).
      lia.
  - intros [-> ->]. reflexivity.
Qed.

Lemma string_app_nil_r (s : string) : s +:+ "" = s.
Proof. induction s as [| c s IH]; cbn [String.append]; congruence. Qed.

Lemma digits_prefix_exponent (e : string) : digits_prefix ("e" +:+ e) = [].
Proof. reflexivity. Qed.

Lemma digits_prefix_point (e : string) : digits_prefix ("." +:+ e) = [].
Proof. reflexivity. Qed.

(** What parseInt reads in the string form of a finite number: the digits
    before the point, which in exponent notation is the first digit. *)
Lemma parseInt_Finite (neg : bool) (d : digit) (l : list digit) (n : Z) :
  parseInt (VNumber (Finite neg (d :: l) n)) =
    Some ((if neg then -1 else 1) *
          (if (Z.of_nat (length (d :: l)) <=? n)%Z && (n <=? 21)%Z then
             digits_Z ((d :: l) ++ repeat d0 (Z.to_nat (n - Z.of_nat (length (d :: l)))))
           else if (0 <? n)%Z && (n <=? 21)%Z then
             digits_Z (take (Z.to_nat n) (d :: l))
           else if (-6 <? n)%Z && (n <=? 0)%Z then 0
           else digits_Z [d]))%Z.
Proof.
  unfold parseInt. cbn [ToString Number_toString].
  destruct ((Z.of_nat (length (d :: l)) <=? n)%Z && (n <=? 21)%Z) eqn:H1.
  - cbn [app].
    rewrite <- (string_app_nil_r (digits_string _)).
    apply parseInt_string_digits. reflexivity.
  - destruct ((0 <? n)%Z && (n <=? 21)%Z) eqn:H2.
    + assert (Hn : exists m, Z.to_nat n = S m).
      { exists (Nat.pred (Z.to_nat n)). lia. }
      destruct Hn as [m Hm]. rewrite Hm. cbn [take].
      apply parseInt_string_digits. reflexivity.
    + destruct ((-6 <? n)%Z && (n <=? 0)%Z) eqn:H3.
      * change 0%Z with (digits_Z [d0]).
        apply (parseInt_string_digits neg d0 []). reflexivity.
      * destruct l as [| d' l].
        -- apply (parseInt_string_digits neg d []). reflexivity.
        -- apply (parseInt_string_digits neg d []). reflexivity.
Qed.

Lemma digits_Z_nonneg (l : list digit) : (0 <= digits_Z l)%Z.
Proof. apply (digits_Z_acc_ge l 0%Z). lia. Qed.

Lemma parses_to_minus_1_Finite (neg : bool) (d : digit) (l : list digit) (n : Z) :
  parses_to_minus_1 (Finite neg (d :: l) n) = true <->
  neg = true /\ d = d1 /\ (n = 1 \/ n <= -6 \/ 21 < n)%Z.
Proof.
  destruct neg; [| simpl; intuition discriminate].
  destruct d; simpl; try (intuition discriminate).
  rewrite !orb_true_iff, Z.eqb_eq, Z.leb_le, Z.ltb_lt. tauto.
Qed.

(** The integer parseInt reads in a well-formed finite number is 1 exactly
    when the first digit is 1 and the exponent is 1 or calls for exponent
    notation. *)
Lemma integer_read_1 (d : digit) (l : list digit) (n : Z) :
  d <> d0 ->
  let k := Z.of_nat (length (d :: l)) in
  let V :=
    (if (k <=? n)%Z && (n <=? 21)%Z then
       digits_Z ((d :: l) ++ repeat d0 (Z.to_nat (n - k)))
     else if (0 <? n)%Z && (n <=? 21)%Z then digits_Z (take (Z.to_nat n) (d :: l))
     else if (-6 <? n)%Z && (n <=? 0)%Z then 0
     else digits_Z [d])%Z in
  (0 <= V)%Z /\ (V = 1%Z <-> d = d1 /\ (n = 1 \/ n <= -6 \/ 21 < n)%Z).
Proof.
  intros Hd k V. subst V.
  assert (Hk : (k = 1 + Z.of_nat (length l))%Z) by (subst k; cbn [length]; lia).
  destruct ((k <=? n)%Z && (n <=? 21)%Z) eqn:H1.
  - split; [apply digits_Z_nonneg |].
    cbn [app]. rewrite digits_Z_1 by assumption. split.
    + intros [-> Hnil]. apply app_eq_nil in Hnil as [-> Hrep].
      split; [reflexivity |]. left.
      destruct (Z.to_nat (n - k)) eqn:Hz; [| discriminate Hrep].
      cbn [length] in *. lia.
    + intros [-> Hn]. split; [reflexivity |].
      assert (n = 1%Z) as -> by lia.
      destruct l; [| cbn [length] in *; lia].
      subst k. reflexivity.
  - destruct ((0 <? n)%Z && (n <=? 21)%Z) eqn:H2.
    + split; [apply digits_Z_nonneg |].
      assert (Hn : Z.to_nat n = S (Nat.pred (Z.to_nat n))) by lia.
      rewrite Hn. cbn [take]. rewrite digits_Z_1 by assumption. split.
      * intros [-> Hnil]. split; [reflexivity |]. left.
        destruct l as [| d' l]; [cbn [length] in *; lia |].
        destruct (Nat.pred (Z.to_nat n)) eqn:Hp; [lia | discriminate Hnil].
      * intros [-> Hcase]. split; [reflexivity |].
        assert (n = 1%Z) as -> by lia. reflexivity.
    + destruct ((-6 <? n)%Z && (n <=? 0)%Z) eqn:H3.
      * split; [lia |]. split; [discriminate | lia].
      * split; [apply digits_Z_nonneg |].
        rewrite digits_Z_1 by assumption. split.
        -- intros [-> _]. split; [reflexivity | lia].
        -- intros [-> _]. auto.
Qed.

(** On a well-formed number, [parseInt(x, 10) === -1] holds exactly for
    the numbers [parses_to_minus_1] lists. *)
Lemma parseInt_minus_1 (x : number) :
  number_wf (VNumber x) ->
  (parseInt (VNumber x) = Some (-1)%Z <-> parses_to_minus_1 x = true).
Proof.
  intros Hwf. destruct x as [| neg | neg | neg [| d l] n].
  - split; discriminate.
  - destruct neg; split; discriminate.
  - split; discriminate.
  - contradiction.
  - cbn in Hwf. rewrite parseInt_Finite, parses_to_minus_1_Finite.
    destruct (integer_read_1 d l n Hwf) as [Hpos H1]. cbv zeta in Hpos, H1.
    rewrite <- H1. clear H1.
    match type of Hpos with
    | (0 <= ?x)%Z => generalize dependent x
    end.
    intros V Hpos. destruct neg.
    + split.
      * intros H. assert (-1 * V = -1)%Z by congruence. split; [reflexivity | lia].
      * intros [_ ->]. reflexivity.
    + split.
      * intros H. assert (1 * V = -1)%Z by congruence. lia.
      * intros [H _]. discriminate H.
Qed.

(** ** sort *)

(** C8, refuted as worded: the number [-1.5] is not [-1], yet
    [sort("x", -1.5)] stores the direction [desc]. *)
Lemma sort_minus_1_5_is_desc :
  typeof num_minus_1_5 = "number" /\
  num_minus_1_5 <> num_minus_1 /\
  ordering (sort (VString "x") num_minus_1_5 posts).2 =
    [VArray [VString "x"; VString "desc"]].
Proof. repeat split. discriminate. Qed.

(** C8, amended.  [sort] adds the pair of the field and a direction after
    the pairs already there, so calls are cumulative, in call order.  The
    direction stored is [asc] for an omitted or falsy argument; for a
    number it is [desc] when [parseInt(direction, 10)] is [-1], which
    holds of [-1], of every number between [-2] and [-1] such as [-1.5],
    and of the negative numbers printed in exponent notation with first
    digit 1, and [asc] for every other number; a truthy argument that is
    not a number is stored as it is. *)
Theorem sort_stores_direction (this : Collection) (field direction : value) :
  number_wf direction ->
  sort field direction this =
    (Normal tt,
     set_ordering (ordering this ++ [VArray [field; stored_direction direction]]) this).
Proof.
  intros Hwf. unfold sort, stored_direction, assign.
  destruct (truthy direction) eqn:Ht; [| reflexivity]. cbn [negb].
  destruct direction as [| | b | x | s | src | l | l | own inh]; try reflexivity.
  cbn [typeof String.eqb Ascii.eqb Bool.eqb].
  destruct (decide (parseInt (VNumber x) = Some (-1)%Z)) as [H | H].
  - apply parseInt_minus_1 in H; [| assumption]. now rewrite H.
  - destruct (parses_to_minus_1 x) eqn:Hp; [| reflexivity].
    exfalso. apply H. now apply parseInt_minus_1.
Qed.

(** [sort("x").sort("y", -1)] on a fresh builder leaves the ordering
    [[["x","asc"],["y","desc"]]]. *)
Lemma sort_stores_direction_witness :
  (_ ← sort (VString "x") VUndefined; sort (VString "y") num_minus_1) posts =
    (Normal tt,
     set_ordering [VArray [VString "x"; VString "asc"];
                   VArray [VString "y"; VString "desc"]] posts).
Proof.
  exact (sort_stores_direction (sort (VString "x") VUndefined posts).2
           (VString "y") num_minus_1 ltac:(discriminate)).
Defined.

(** Among the integers of at most 21 digits, which print without exponent,
    [-1] is the only one stored as [desc]. *)
Lemma stored_direction_integer (neg : bool) (d : digit) (l : list digit) (n : Z) :
  d <> d0 ->
  (Z.of_nat (length (d :: l)) <= n <= 21)%Z ->
  (stored_direction (VNumber (Finite neg (d :: l) n)) = VString "desc" <->
   Finite neg (d :: l) n = Finite true [d1] 1).
Proof.
  intros Hd Hn. unfold stored_direction. cbn [truthy].
  destruct (parses_to_minus_1 (Finite neg (d :: l) n)) eqn:Hp.
  - apply parses_to_minus_1_Finite in Hp as (-> & -> & Hcase).
    assert (n = 1%Z) as -> by lia.
    destruct l; [tauto | cbn [length] in Hn; lia].
  - split; [discriminate |]. intros H. rewrite H in Hp. discriminate Hp.
Qed.

(** ** paginate *)

Lemma set_client_set_client (c c' : Client.t) (this : Collection) :
  set_client c' (set_client c this) = set_client c' this.
Proof. reflexivity. Qed.

Lemma client_set_client (c : Client.t) (this : Collection) :
  client (set_client c this) = c.
Proof. reflexivity. Qed.

(** Attaching continuations to the promise of the last call. *)
Lemma promise_then_sent (v : Client.verb) (path : string) (b : Client.payload)
    (args : list Client.continuation) (c : Client.t) :
  Client.promise_then (length (Client.requests c)) args (sent v path b [] c) =
    sent v path b [args] c.
Proof.
  unfold Client.promise_then, sent. cbn [Client.requests]. f_equal.
  rewrite <- (Nat.add_0_r (length (Client.requests c))).
  now rewrite alter_app_r.
Qed.

Lemma get_eq (this : Collection) :
  get this =
    (Normal (length (Client.requests (client this))),
     set_client
       (sent Client.get (segments this) (Client.Query (descriptor this)) []
             (client this))
       (cleared this)).
Proof. reflexivity. Qed.

Lemma then_eq (args : list Client.continuation) (this : Collection) :
  then_ args this =
    (Normal (length (Client.requests (client this))),
     set_client
       (sent Client.get (segments this) (Client.Query (descriptor this)) [args]
             (client this))
       (cleared this)).
Proof.
  unfold then_, mbind, method_bind. rewrite get_eq.
  unfold promise_then, assign, mret, method_ret.
  now rewrite client_set_client, set_client_set_client, promise_then_sent.
Qed.

(** Every call of [paginate] dispatches exactly one [get], on the path of
    the collection, and attaches its continuation to that call; the page
    size it compiles is [perPage] only when [onComplete] is truthy, and
    [Hook.defaults.perPage] otherwise. *)
Lemma paginate_eq (defaults_perPage perPage onComplete onError : value)
    (this : Collection) :
  let pagination := {| Client.collection := segments this |} in
  let chosen := if truthy onComplete then (perPage, onComplete)
                else (defaults_perPage, perPage) in
  paginate defaults_perPage perPage onComplete onError this =
    (Normal pagination,
     set_client
       (sent Client.get (segments this)
             (Client.Query
                (descriptor (set_options (<["paginate" := chosen.1]> (options this)) this)))
             [[Client.FetchComplete pagination chosen.2; Client.Given onError]]
             (client this))
       (cleared this)).
Proof.
  unfold paginate, mbind, method_bind, mret, method_ret, this_.
  destruct (truthy onComplete); cbn [negb fst snd]; cbv beta iota zeta;
    unfold set_option, assign; cbv beta iota; rewrite then_eq; reflexivity.
Qed.

Lemma apply_option_unset (opts q : gmap string value) (f short : string) :
  opts !! f = None -> apply_option opts q (f, short) = q.
Proof. unfold apply_option. cbn [fst snd]. now intros ->. Qed.

Lemma apply_option_set (opts q : gmap string value) (f short : string) (v : value) :
  opts !! f = Some v ->
  apply_option opts q (f, short) = if truthy v then <[short := v]> q else q.
Proof. unfold apply_option. cbn [fst snd]. now intros ->. Qed.

Lemma descriptor_paginate_only (perPage : value) :
  descriptor (set_options (<["paginate" := perPage]> ∅) posts) =
    if truthy perPage then {[ "p" := perPage ]} else ∅.
Proof.
  rewrite descriptor_eq. cbv zeta.
  cbn [posts set_options options _limit _offset _remember wheres ordering _group
       not_null length Nat.eqb negb length_gt_0].
  rewrite (apply_option_set _ _ "paginate" "p" perPage) by apply lookup_insert_eq.
  rewrite !apply_option_unset by (rewrite lookup_insert_ne by discriminate;
                                  apply lookup_empty).
  reflexivity.
Qed.

(** C2 at [paginate(20)], whatever the default page size is.  The call
    returns the pagination object and dispatches exactly one [get] on the
    path of the collection, with its continuation attached and not yet
    run.  But the argument [20] is taken for the completion callback: the
    page size compiled under [p] is [Hook.defaults.perPage], not [20], and
    the continuation, once run on the data of the response, calls [20] as
    a function, which throws. *)
Theorem paginate_20_takes_default (defaults_perPage data : value) :
  let pagination := {| Client.collection := "collection/posts" |} in
  paginate defaults_perPage num_20 VUndefined VUndefined posts =
    (Normal pagination,
     set_client
       {| Client.requests :=
            [{| Client.verb_of := Client.get; Client.path := "collection/posts";
                Client.body :=
                  Client.Query (if truthy defaults_perPage
                                then {[ "p" := defaults_perPage ]} else ∅);
                Client.thens :=
                  [[Client.FetchComplete pagination num_20;
                    Client.Given VUndefined]] |}] |}
       posts) /\
  Client.run_FetchComplete pagination num_20 data =
    ([Client.fetchComplete pagination data], Throw TypeError).
Proof.
  split; [| reflexivity].
  rewrite paginate_eq. cbn [truthy fst snd]. cbv zeta.
  change (options posts) with (∅ : gmap string value).
  now rewrite descriptor_paginate_only.
Qed.

(** With a default page size of 50, [paginate(20)] asks for pages of 50. *)
Lemma paginate_20_default_50 :
  Client.body <$> Client.requests
      (client (paginate num_50 num_20 VUndefined VUndefined posts).2) =
    [Client.Query {[ "p" := num_50 ]}] /\
  num_50 <> num_20.
Proof. split; [reflexivity | discriminate]. Qed.

(** With a completion callback, the page size given is the one compiled. *)
Lemma paginate_with_callback (defaults_perPage : value) (src : string) :
  Client.requests
      (client (paginate defaults_perPage num_20 (VFunction src) VUndefined posts).2) =
    [{| Client.verb_of := Client.get; Client.path := "collection/posts";
        Client.body := Client.Query {[ "p" := num_20 ]};
        Client.thens :=
          [[Client.FetchComplete {| Client.collection := "collection/posts" |}
              (VFunction src);
            Client.Given VUndefined]] |}].
Proof.
  rewrite paginate_eq. cbn [truthy fst snd]. cbv zeta.
  change (options posts) with (∅ : gmap string value).
  now rewrite descriptor_paginate_only.
Qed.

(** * Further properties of the class *)

(** ** The constructor on names that are not strings *)



(** ** where: what a call adds *)

Lemma appends_ret : appends (mret tt) (Normal tt) [].
Proof. intros this. now rewrite app_nil_r, set_wheres_id. Qed.

Lemma appends_throw (e : error) : appends (throw e) (Throw e) [].
Proof. intros this. unfold throw. now rewrite app_nil_r, set_wheres_id. Qed.

Lemma appends_addWhere (field operation v boolean : value) :
  exists r added,
    returns_or_TypeError r /\ appends (addWhere field operation v boolean) r added.
Proof.
  destruct operation as [| | | | op | | | |];
    try (exists (Throw TypeError), []; split; [now right | apply appends_throw]).
  eexists _, _. split; [now left |]. intros this. apply addWhere_string.
Qed.

Lemma appends_bind (m k : method unit) (r : completion unit) (l1 l2 : list value) :
  appends m (Normal tt) l1 -> appends k r l2 ->
  appends (_ ← m; k) r (l1 ++ l2).
Proof.
  intros Hm Hk this. unfold mbind, method_bind. rewrite Hm, Hk.
  rewrite set_wheres_set_wheres.
  change (wheres (set_wheres ?l this)) with l. now rewrite app_assoc.
Qed.

Lemma appends_bind_throw (m k : method unit) (e : error) (l : list value) :
  appends m (Throw e) l -> appends (_ ← m; k) (Throw e) l.
Proof. intros Hm this. unfold mbind, method_bind. now rewrite Hm. Qed.

Lemma appends_for_each (body : string -> method unit) (keys : list string) :
  (forall k, exists r added, returns_or_TypeError r /\ appends (body k) r added) ->
  exists r added, returns_or_TypeError r /\ appends (for_each keys body) r added.
Proof.
  intros Hbody. induction keys as [| k keys (r & l & Hr & IH)].
  - eexists _, _. split; [now left | apply appends_ret].
  - destruct (Hbody k) as (rk & lk & [-> | ->] & Hk).
    + eexists _, _. split; [exact Hr |]. cbn [for_each].
      apply (appends_bind _ _ _ _ _ Hk IH).
    + eexists _, _. split; [now right |]. cbn [for_each].
      apply (appends_bind_throw _ _ _ _ Hk).
Qed.

Lemma appends_where (objects _operation _value _boolean : value) :
  exists r added,
    returns_or_TypeError r /\
    appends (where_ objects _operation _value _boolean) r added.
Proof.
  unfold where_. destruct (String.eqb (typeof objects) "object").
  - apply appends_for_each. intros k. unfold call_hasOwnProperty.
    destruct (lookup_property objects "hasOwnProperty").
    + exists (Throw TypeError), []. split; [now right |]. intros this.
      unfold mbind, method_bind, throw. now rewrite app_nil_r, set_wheres_id.
    + destruct (hasOwnProperty objects k).
      * cbv zeta.
        destruct (instanceof_Array (get_property objects k));
          match goal with
          | |- context [addWhere ?f ?o ?v ?b] =>
              destruct (appends_addWhere f o v b) as (r & l & Hr & H)
          end; exists r, l; (split; [exact Hr |]); intros this;
          unfold mbind, method_bind, mret, method_ret; apply H.
      * exists (Normal tt), []. split; [now left |]. intros this.
        unfold mbind, method_bind, mret, method_ret.
        now rewrite app_nil_r, set_wheres_id.
  - apply appends_addWhere.
Qed.


(** ** orWhere *)

(** X3.  [orWhere] is [where] with the combinator ["or"] on every clause
    the call adds: on the one clause of the positional shapes, the
    operator lower-cased, and on the clause of each own entry of a map. *)
Theorem orWhere_forces_or (this : Collection) (f op : string) (v : value)
    (own inherited : list (string * value)) :
  v <> VUndefined ->
  lookup_property (VObject own inherited) "hasOwnProperty" = None ->
  NoDup own.*1 ->
  forallb entry_ok own = true ->
  orWhere (VString f) v VUndefined this =
    (Normal tt, set_wheres (wheres this ++ [clause f "=" v (VString "or")]) this) /\
  orWhere (VString f) (VString op) v this =
    (Normal tt,
     set_wheres (wheres this ++ [clause f (toLowerCase op) v (VString "or")]) this) /\
  orWhere (VObject own inherited) VUndefined VUndefined this =
    (Normal tt,
     set_wheres (wheres this ++ map (entry_clause (VString "or")) own) this).
Proof.
  intros Hv Hcall Hnd Hok. unfold orWhere. split; [| split].
  - destruct v; reflexivity.
  - destruct v; try reflexivity. contradiction.
  - now rewrite where_map.
Qed.

(** [where("a", 1).orWhere("b", "LIKE", "x%")] and an [orWhere] on a
    map. *)
Lemma orWhere_forces_or_witness :
  orWhere (VString "b") num_1 VUndefined posts =
    (Normal tt, set_wheres [clause "b" "=" num_1 (VString "or")] posts) /\
  orWhere (VString "b") (VString "LIKE") num_1 posts =
    (Normal tt, set_wheres [clause "b" "like" num_1 (VString "or")] posts) /\
  orWhere (VObject [("a", num_1); ("b", VArray [VString ">"; num_2])] [])
          VUndefined VUndefined posts =
    (Normal tt,
     set_wheres [clause "a" "=" num_1 (VString "or");
                 clause "b" ">" num_2 (VString "or")] posts).
Proof.
  apply (orWhere_forces_or posts "b" "LIKE" num_1
           [("a", num_1); ("b", VArray [VString ">"; num_2])] []).
  - discriminate.
  - reflexivity.
  - apply NoDup_cons. split; [| apply NoDup_singleton].
    intros H. apply list_elem_of_singleton in H. discriminate H.
  - reflexivity.
Defined.

(** ** where: operators that are not strings *)



(** ** where: a map with a bad entry *)




(** ** Each modifier and the key it compiles to *)

(** The descriptor after one key was set or unset: equal to [q'] at every
    key once it is at [short] and agrees elsewhere. *)
Ltac descriptor_at k short :=
  rewrite descriptor_lookup;
  destruct (String.eqb_spec k short) as [-> | ?];
  [ rewrite ?lookup_insert_eq, ?lookup_delete_eq
  | rewrite ?lookup_insert_ne, ?lookup_delete_ne by congruence;
    rewrite descriptor_lookup ];
  unfold key_source, truthy_option;
  cbn [options wheres ordering _group _limit _offset _remember
       set_options set_wheres set_ordering set_group set_limit set_offset
       set_remember String.eqb Ascii.eqb Bool.eqb].

Lemma descriptor_set_option (this : Collection) (f short : string) (v : value) :
  In (f, short) shortnames ->
  descriptor (set_options (<[f := v]> (options this)) this) =
    if truthy v then <[short := v]> (descriptor this)
    else delete short (descriptor this).
Proof.
  intros Hin. cbn [shortnames In] in Hin.
  repeat (destruct Hin as [Hin | Hin]; [injection Hin as <- <- |]);
    [.. | contradiction];
    destruct (truthy v) eqn:Hv; apply map_eq; intros k;
    match goal with
    | |- _ = <[?s := _]> _ !! _ => descriptor_at k s
    | |- _ = delete ?s _ !! _ => descriptor_at k s
    end;
    rewrite ?lookup_insert_eq; rewrite ?lookup_insert_ne by discriminate;
    cbn [mbind option_bind]; rewrite ?Hv; try reflexivity;
    repeat match goal with
           | H : k <> ?x |- context [String.eqb k ?x] =>
               rewrite (proj2 (String.eqb_neq k x) H)
           end; reflexivity.
Qed.

Ltac other_keys k :=
  repeat match goal with
         | H : k <> ?x |- context [String.eqb k ?x] =>
             rewrite (proj2 (String.eqb_neq k x) H)
         end.

Lemma descriptor_set_limit (this : Collection) (v : value) :
  descriptor (set_limit v this) =
    if not_null v then <["limit" := v]> (descriptor this)
    else delete "limit" (descriptor this).
Proof.
  destruct (not_null v) eqn:Hv; apply map_eq; intros k; descriptor_at k "limit";
    rewrite ?Hv; try reflexivity; other_keys k; reflexivity.
Qed.

Lemma descriptor_set_offset (this : Collection) (v : value) :
  descriptor (set_offset v this) =
    if not_null v then <["offset" := v]> (descriptor this)
    else delete "offset" (descriptor this).
Proof.
  destruct (not_null v) eqn:Hv; apply map_eq; intros k; descriptor_at k "offset";
    rewrite ?Hv; try reflexivity; other_keys k; reflexivity.
Qed.

Lemma descriptor_set_remember (this : Collection) (v : value) :
  descriptor (set_remember v this) =
    if not_null v then <["remember" := v]> (descriptor this)
    else delete "remember" (descriptor this).
Proof.
  destruct (not_null v) eqn:Hv; apply map_eq; intros k; descriptor_at k "remember";
    rewrite ?Hv; try reflexivity; other_keys k; reflexivity.
Qed.

Lemma descriptor_set_wheres (this : Collection) (l : list value) :
  descriptor (set_wheres l this) =
    if negb (Nat.eqb (length l) 0) then <["q" := VArray l]> (descriptor this)
    else delete "q" (descriptor this).
Proof.
  destruct (negb (Nat.eqb (length l) 0)) eqn:Hl; apply map_eq; intros k;
    descriptor_at k "q"; rewrite ?Hl; try reflexivity; other_keys k; reflexivity.
Qed.

Lemma descriptor_set_ordering (this : Collection) (l : list value) :
  descriptor (set_ordering l this) =
    if negb (Nat.eqb (length l) 0) then <["s" := VArray l]> (descriptor this)
    else delete "s" (descriptor this).
Proof.
  destruct (negb (Nat.eqb (length l) 0)) eqn:Hl; apply map_eq; intros k;
    descriptor_at k "s"; rewrite ?Hl; try reflexivity; other_keys k; reflexivity.
Qed.

Lemma descriptor_set_group (this : Collection) (g : value) :
  descriptor (set_group g this) =
    if length_gt_0 g then <["g" := g]> (descriptor this)
    else delete "g" (descriptor this).
Proof.
  destruct (length_gt_0 g) eqn:Hg; apply map_eq; intros k;
    descriptor_at k "g"; rewrite ?Hg; try reflexivity; other_keys k; reflexivity.
Qed.

Lemma length_app_singleton_nonzero (l : list value) (x : value) :
  negb (Nat.eqb (length (l ++ [x])) 0) = true.
Proof. rewrite length_app. cbn [length]. now rewrite Nat.add_1_r. Qed.

(** X6.  [limit], [offset] and [remember] store their argument as it is,
    and the next descriptor is the one the builder would have compiled
    before the call with the key set to it; only [null] takes the key
    out.  So a call without an argument does not unset anything: it puts
    the key in, with the value [undefined]. *)
Theorem scalar_is_unset_by_null_only (this : Collection) (v : value) :
  descriptor (limit v this).2 =
    (if not_null v then <["limit" := v]> (descriptor this)
     else delete "limit" (descriptor this)) /\
  descriptor (offset v this).2 =
    (if not_null v then <["offset" := v]> (descriptor this)
     else delete "offset" (descriptor this)) /\
  descriptor (remember v this).2 =
    (if not_null v then <["remember" := v]> (descriptor this)
     else delete "remember" (descriptor this)) /\
  descriptor (limit VUndefined this).2 !! "limit" = Some VUndefined /\
  descriptor (limit VNull this).2 !! "limit" = None.
Proof.
  repeat split.
  - apply descriptor_set_limit.
  - apply descriptor_set_offset.
  - apply descriptor_set_remember.
  - change (limit VUndefined this).2 with (set_limit VUndefined this).
    rewrite descriptor_set_limit. apply lookup_insert_eq.
  - change (limit VNull this).2 with (set_limit VNull this).
    rewrite descriptor_set_limit. apply lookup_delete_eq.
Qed.

(** X7.  [select], [join], [distinct], [group] and [sort] each change one
    key of the next descriptor and no other: [select] and [join] put the
    list of their arguments under [select] and [with], even when it is
    empty; [distinct] puts [true] under [distinct]; [group] puts the list
    of its arguments under [g], or takes [g] out when it has none; [sort]
    puts the ordering, one pair longer, under [s]. *)
Theorem modifier_changes_one_key (this : Collection) (arguments : list value)
    (field direction : value) :
  number_wf direction ->
  descriptor (select arguments this).2 =
    <["select" := VArguments arguments]> (descriptor this) /\
  descriptor (join arguments this).2 =
    <["with" := VArguments arguments]> (descriptor this) /\
  descriptor (distinct this).2 = <["distinct" := VBool true]> (descriptor this) /\
  descriptor (group arguments this).2 =
    (if negb (Nat.eqb (length arguments) 0)
     then <["g" := VArguments arguments]> (descriptor this)
     else delete "g" (descriptor this)) /\
  descriptor (sort field direction this).2 =
    <["s" := VArray (ordering this ++ [VArray [field; stored_direction direction]])]>
      (descriptor this).
Proof.
  intros Hwf. repeat split.
  - apply (descriptor_set_option this "select" "select" (VArguments arguments)).
    cbn. tauto.
  - apply (descriptor_set_option this "with" "with" (VArguments arguments)).
    cbn. tauto.
  - apply (descriptor_set_option this "distinct" "distinct" (VBool true)).
    cbn. tauto.
  - apply (descriptor_set_group this (VArguments arguments)).
  - assert (Hs : (sort field direction this).2 =
                 set_ordering
                   (ordering this ++ [VArray [field; stored_direction direction]]) this).
    { unfold sort, stored_direction, assign. cbn [snd].
      destruct (truthy direction) eqn:Ht; [| reflexivity]. cbn [negb].
      destruct direction as [| | b | x | s | src | l | l | own inh]; try reflexivity.
      cbn [typeof String.eqb Ascii.eqb Bool.eqb].
      destruct (decide (parseInt (VNumber x) = Some (-1)%Z)) as [H | H].
      - apply parseInt_minus_1 in H; [| assumption]. now rewrite H.
      - destruct (parses_to_minus_1 x) eqn:Hp; [| reflexivity].
        exfalso. apply H. now apply parseInt_minus_1. }
    rewrite Hs, descriptor_set_ordering. now rewrite length_app_singleton_nonzero.
Qed.

(** [select("a").sort("x", -1)], piece by piece, on a fresh builder. *)
Lemma modifier_changes_one_key_witness :
  descriptor (select [VString "a"] posts).2 = {[ "select" := VArguments [VString "a"] ]} /\
  descriptor (join [VString "a"] posts).2 = {[ "with" := VArguments [VString "a"] ]} /\
  descriptor (distinct posts).2 = {[ "distinct" := VBool true ]} /\
  descriptor (group [VString "a"] posts).2 = {[ "g" := VArguments [VString "a"] ]} /\
  descriptor (sort (VString "x") num_minus_1 posts).2 =
    {[ "s" := VArray [VArray [VString "x"; VString "desc"]] ]}.
Proof.
  exact (modifier_changes_one_key posts [VString "a"] (VString "x") num_minus_1
           ltac:(discriminate)).
Defined.

(** ** The terminal methods, one by one *)

Lemma client_call_eq (v : Client.verb) (path : string) (b : Client.payload)
    (this : Collection) :
  client_call v path b this =
    (Normal (length (Client.requests (client this))),
     set_client (sent v path b [] (client this)) this).
Proof. reflexivity. Qed.

(** The guarded [then.apply] right after a call. *)
Lemma attach_eq (guard : bool) (args : list value) (v : Client.verb) (path : string)
    (b : Client.payload) (c : Client.t) (this : Collection) :
  (if guard then then_apply (length (Client.requests c)) args else mret tt)
    (set_client (sent v path b [] c) this) =
    (Normal tt, set_client (sent v path b (attached guard args) c) this).
Proof.
  destruct guard; [| reflexivity].
  unfold then_apply, promise_then, assign, attached.
  now rewrite client_set_client, set_client_set_client, promise_then_sent.
Qed.


(** [get], then the guarded [then.apply]: the tail of [count], [max],
    [min], [avg], [sum] and [first]. *)
Lemma get_attach_eq (guard : bool) (args : list value) (this : Collection) :
  (promise ← get;
   _ ← (if guard then then_apply promise args else mret tt);
   mret promise) this =
    (Normal (length (Client.requests (client this))),
     set_client
       (sent Client.get (segments this) (Client.Query (descriptor this))
             (attached guard args) (client this))
       (cleared this)).
Proof.
  unfold mbind, method_bind. rewrite get_eq, attach_eq. reflexivity.
Qed.

Lemma count_eq (arguments : list value) (this : Collection) :
  count arguments this =
    (Normal (length (Client.requests (client this))),
     set_client
       (sent Client.get (segments this)
             (Client.Query
                (descriptor
                   (set_options
                      (<["aggregation" :=
                           aggregation "count"
                             (if is_undefined (argument arguments 0) then VString "*"
                              else argument arguments 0)]> (options this)) this)))
             (attached (0 <? length arguments)%nat arguments) (client this))
       (cleared this)).
Proof.
  unfold count. cbv zeta. unfold mbind at 1, method_bind at 1, set_option, assign.
  now rewrite get_attach_eq.
Qed.

Lemma aggregate_eq (m : string) (arguments : list value) (this : Collection) :
  aggregate m arguments this =
    (Normal (length (Client.requests (client this))),
     set_client
       (sent Client.get (segments this)
             (Client.Query
                (descriptor
                   (set_options
                      (<["aggregation" := aggregation m (argument arguments 0)]>
                         (options this)) this)))
             (attached (1 <? length arguments)%nat (skipn 1 arguments)) (client this))
       (cleared this)).
Proof.
  unfold aggregate. cbv zeta. unfold mbind at 1, method_bind at 1, set_option, assign.
  now rewrite get_attach_eq.
Qed.

Lemma first_eq (arguments : list value) (this : Collection) :
  first arguments this =
    (Normal (length (Client.requests (client this))),
     set_client
       (sent Client.get (segments this)
             (Client.Query
                (descriptor
                   (set_options (<["first" := num_1]> (options this)) this)))
             [map Client.Given arguments] (client this))
       (cleared this)).
Proof.
  unfold first. unfold mbind at 1, method_bind at 1, set_option, assign.
  now rewrite (get_attach_eq true).
Qed.

Lemma firstOrCreate_eq (data : value) (this : Collection) :
  firstOrCreate data this =
    (Normal (length (Client.requests (client this))),
     set_client
       (sent Client.post (segments this)
             (Client.Query
                (descriptor
                   (set_options
                      (<["data" := data]> (<["first" := num_1]> (options this)))
                      this)))
             [] (client this))
       (cleared this)).
Proof.
  unfold firstOrCreate, mbind, method_bind, set_option, assign, this_.
  rewrite buildQuery_eq. reflexivity.
Qed.

Lemma operate_eq (m : string) (arguments : list value) (this : Collection) :
  operate m arguments this =
    (Normal (length (Client.requests (client this))),
     set_client
       (sent Client.put (segments this)
             (Client.Query
                (descriptor
                   (set_options
                      (<["operation" :=
                           operation m (argument arguments 0) (argument arguments 1)]>
                         (options this)) this)))
             (attached (0 <? length arguments)%nat arguments) (client this))
       (cleared this)).
Proof.
  unfold operate. cbv zeta. unfold mbind, method_bind, set_option, assign, this_.
  rewrite buildQuery_eq, client_call_eq.
  change (client (cleared ?x)) with (client this).
  rewrite attach_eq. reflexivity.
Qed.

Lemma updateAll_eq (data : value) (this : Collection) :
  updateAll data this =
    (Normal (length (Client.requests (client this))),
     set_client
       (sent Client.put (segments this)
             (Client.Query
                (descriptor (set_options (<["data" := data]> (options this)) this)))
             [] (client this))
       (cleared this)).
Proof.
  unfold updateAll, mbind, method_bind, set_option, assign, this_.
  rewrite buildQuery_eq. reflexivity.
Qed.

Lemma shortname_aggregation : In ("aggregation", "aggr") shortnames.
Proof. cbn. tauto. Qed.

Lemma shortname_first : In ("first", "f") shortnames.
Proof. cbn. tauto. Qed.

Lemma shortname_operation : In ("operation", "op") shortnames.
Proof. cbn. tauto. Qed.

Lemma shortname_data : In ("data", "data") shortnames.
Proof. cbn. tauto. Qed.

Lemma shortname_paginate : In ("paginate", "p") shortnames.
Proof. cbn. tauto. Qed.

(** X8.  [count], [max], [min], [avg] and [sum] each send one [get] on the
    path of the collection whose query is the descriptor of the builder
    with the key [aggr] set to [{method, field}], and reset the builder.
    For [count] the field is ["*"] when the first argument is undefined and
    the first argument otherwise, so a callback passed as only argument is
    the field; and [count] attaches all of its arguments as continuations,
    whereas the other four attach the arguments after the field. *)
Theorem aggregates_compile_aggr (this : Collection) (arguments : list value) :
  let sends field thens :=
    (Normal (length (Client.requests (client this))),
     set_client
       (sent Client.get (segments this)
             (Client.Query (<["aggr" := field]> (descriptor this)))
             thens (client this))
       (cleared this)) in
  let rest := attached (1 <? length arguments)%nat (skipn 1 arguments) in
  count arguments this =
    sends (aggregation "count"
             (if is_undefined (argument arguments 0) then VString "*"
              else argument arguments 0))
          (attached (0 <? length arguments)%nat arguments) /\
  max arguments this = sends (aggregation "max" (argument arguments 0)) rest /\
  min arguments this = sends (aggregation "min" (argument arguments 0)) rest /\
  avg arguments this = sends (aggregation "avg" (argument arguments 0)) rest /\
  sum arguments this = sends (aggregation "sum" (argument arguments 0)) rest.
Proof.
  cbv zeta. unfold max, min, avg, sum.
  rewrite count_eq, !aggregate_eq.
  rewrite !(descriptor_set_option this "aggregation" "aggr" _ shortname_aggregation).
  repeat split.
Qed.

(** X9.  [first] sends one [get] whose query is the descriptor of the
    builder with [f] set to 1, and always attaches its arguments, even
    when there are none.  [firstOrCreate] sends one [post] whose body is
    that descriptor with the payload under [data]; a falsy payload is left
    out.  Both reset the builder. *)
Theorem first_compiles_f (this : Collection) (arguments : list value) (data : value) :
  first arguments this =
    (Normal (length (Client.requests (client this))),
     set_client
       (sent Client.get (segments this)
             (Client.Query (<["f" := num_1]> (descriptor this)))
             [map Client.Given arguments] (client this))
       (cleared this)) /\
  firstOrCreate data this =
    (Normal (length (Client.requests (client this))),
     set_client
       (sent Client.post (segments this)
             (Client.Query
                (if truthy data then <["data" := data]> (<["f" := num_1]> (descriptor this))
                 else delete "data" (<["f" := num_1]> (descriptor this))))
             [] (client this))
       (cleared this)).
Proof.
  rewrite first_eq, firstOrCreate_eq. split.
  - now rewrite (descriptor_set_option this "first" "f" _ shortname_first).
  - change (set_options (<["data" := data]> (<["first" := num_1]> (options this))) this)
      with (set_options
              (<["data" := data]>
                 (options (set_options (<["first" := num_1]> (options this)) this)))
              (set_options (<["first" := num_1]> (options this)) this)).
    rewrite (descriptor_set_option _ "data" "data" _ shortname_data).
    now rewrite (descriptor_set_option this "first" "f" _ shortname_first).
Qed.

(** X10.  [increment] and [decrement] send one [put] on the path of the
    collection whose body is the descriptor of the builder, filters
    included, with [op] set to [{method, field, value}]; they attach all
    of their arguments, the field and the value themselves, as
    continuations, and reset the builder. *)
Theorem increment_compiles_op (this : Collection) (arguments : list value) :
  let sends m :=
    (Normal (length (Client.requests (client this))),
     set_client
       (sent Client.put (segments this)
             (Client.Query
                (<["op" := operation m (argument arguments 0) (argument arguments 1)]>
                   (descriptor this)))
             (attached (0 <? length arguments)%nat arguments) (client this))
       (cleared this)) in
  increment arguments this = sends "increment" /\
  decrement arguments this = sends "decrement".
Proof.
  cbv zeta. unfold increment, decrement. rewrite !operate_eq.
  rewrite !(descriptor_set_option this "operation" "op" _ shortname_operation).
  split; reflexivity.
Qed.

(** X11.  [updateAll] sends one [put] on the path of the collection whose
    body is the descriptor of the builder, so the filters accumulated
    scope the update, with the payload under [data]; a falsy payload is
    left out.  The builder is reset. *)
Theorem updateAll_compiles_data (this : Collection) (data : value) :
  updateAll data this =
    (Normal (length (Client.requests (client this))),
     set_client
       (sent Client.put (segments this)
             (Client.Query
                (if truthy data then <["data" := data]> (descriptor this)
                 else delete "data" (descriptor this)))
             [] (client this))
       (cleared this)) /\
  (if truthy data then <["data" := data]> (descriptor this)
   else delete "data" (descriptor this)) !! "q" = descriptor this !! "q".
Proof.
  rewrite updateAll_eq.
  rewrite (descriptor_set_option this "data" "data" _ shortname_data).
  split; [reflexivity |].
  destruct (truthy data).
  - now rewrite lookup_insert_ne.
  - now rewrite lookup_delete_ne.
Qed.


(** X13.  [paginate] with a completion callback that is a function sends
    one [get] on the path of the collection whose query is the descriptor
    of the builder with the page size under [p], a falsy page size being
    left out; it returns the pagination object of the collection and
    resets the builder.  The continuation it attaches, with [onError]
    beside it, hands the data to the pagination object and then calls the
    callback with it.  Without any argument the page size is the default
    and the continuation calls nothing after the pagination object. *)
Theorem paginate_compiles_p (defaults_perPage perPage onError data : value)
    (src : string) (this : Collection) :
  let pagination := {| Client.collection := segments this |} in
  let sends size onComplete :=
    (Normal pagination,
     set_client
       (sent Client.get (segments this)
             (Client.Query
                (if truthy size then <["p" := size]> (descriptor this)
                 else delete "p" (descriptor this)))
             [[Client.FetchComplete pagination onComplete; Client.Given onError]]
             (client this))
       (cleared this)) in
  paginate defaults_perPage perPage (VFunction src) onError this =
    sends perPage (VFunction src) /\
  Client.run_FetchComplete pagination (VFunction src) data =
    ([Client.fetchComplete pagination data; Client.invoke (VFunction src) pagination],
     Normal tt) /\
  paginate defaults_perPage VUndefined VUndefined onError this =
    sends defaults_perPage VUndefined /\
  Client.run_FetchComplete pagination VUndefined data =
    ([Client.fetchComplete pagination data], Normal tt).
Proof.
  cbv zeta. rewrite !paginate_eq. cbn [truthy fst snd]. cbv zeta.
  rewrite !(descriptor_set_option this "paginate" "p" _ shortname_paginate).
  repeat split.
Qed.

(** ** Chains of modifiers *)



Lemma chain_cons (m : modifier) (ms : list modifier) (this : Collection) :
  chain (m :: ms) this =
    match (call m this).1 with
    | Normal _ => chain ms (call m this).2
    | Throw e => (Throw e, (call m this).2)
    end.
Proof.
  cbn [chain]. unfold mbind, method_bind.
  destruct (call m this) as [[[] | e] this']; reflexivity.
Qed.






(** ** How modifiers compose *)

(** X16.  [select], [join], [group], [limit], [offset] and [remember]
    replace what an earlier call of the same modifier stored: two calls in
    a row leave the builder as the second alone does.  [distinct] twice is
    [distinct] once. *)
Theorem later_call_replaces_earlier (this : Collection) (a b : list value)
    (x y : value) :
  (_ ← select a; select b) this = select b this /\
  (_ ← join a; join b) this = join b this /\
  (_ ← group a; group b) this = group b this /\
  (_ ← limit x; limit y) this = limit y this /\
  (_ ← offset x; offset y) this = offset y this /\
  (_ ← remember x; remember y) this = remember y this /\
  (_ ← distinct; distinct) this = distinct this.
Proof.
  unfold select, join, distinct, set_option, assign, mbind, method_bind.
  cbn [options set_options]. unfold set_options. cbn.
  rewrite !insert_insert_eq. repeat split.
Qed.

Lemma chain_two (m1 m2 : modifier) (this : Collection) :
  chain [m1; m2] this =
    match (call m1 this).1 with
    | Normal _ =>
        match (call m2 (call m1 this).2).1 with
        | Normal _ => (Normal tt, (call m2 (call m1 this).2).2)
        | Throw e => (Throw e, (call m2 (call m1 this).2).2)
        end
    | Throw e => (Throw e, (call m1 this).2)
    end.
Proof.
  rewrite chain_cons. destruct (call m1 this).1; [| reflexivity].
  rewrite chain_cons. destruct (call m2 _).1; reflexivity.
Qed.

(** A modifier other than [where], [orWhere] and [reset] returns normally
    and its effect on one component does not depend on the others. *)
Ltac where_shape :=
  repeat match goal with
         | |- context [where_ ?o ?a ?b ?c] =>
             let r := fresh "r" in
             let l := fresh "l" in
             let H := fresh "H" in
             destruct (appends_where o a b c) as (r & l & _ & H);
             rewrite !H; clear H
         end.

(** X17.  Two modifiers that write different components of the
    accumulator commute: when a chain of the two returns normally, the
    chain in the other order returns normally too and leaves the same
    builder. *)
Theorem independent_modifiers_commute (m1 m2 : modifier) (this : Collection) :
  independent m1 m2 = true ->
  (chain [m1; m2] this).1 = Normal tt ->
  chain [m2; m1] this = chain [m1; m2] this.
Proof.
  intros Hi. rewrite !chain_two.
  destruct m1, m2; try discriminate Hi; clear Hi;
    cbn [call]; unfold orWhere; where_shape;
    cbn [fst snd]; intros Hr;
    repeat match goal with
           | r : completion unit |- _ => destruct r as [[] | ?]
           end;
    try discriminate Hr; try reflexivity;
    unfold select, join, distinct, set_option, assign;
    cbn [fst snd options set_options];
    unfold set_options; cbn [client name segments options wheres ordering _group
                             _limit _offset _remember];
    (rewrite insert_insert_ne by discriminate); reflexivity.
Qed.

(** [where("a", 1)] and [sort("x", -1)] in either order. *)
Lemma independent_modifiers_commute_witness :
  chain [Sort (VString "x") num_minus_1;
         Where (VString "a") num_1 VUndefined VUndefined] posts =
  chain [Where (VString "a") num_1 VUndefined VUndefined;
         Sort (VString "x") num_minus_1] posts.
Proof.
  apply (independent_modifiers_commute
           (Where (VString "a") num_1 VUndefined VUndefined)
           (Sort (VString "x") num_minus_1) posts); reflexivity.
Defined.

(** ** A builder over its life *)

